(** * Interfacial segments of the particle packing generator

    A shallow embedding of [src/Interface.cpp] (class [Packing::Interface])
    and the properties of its point set, bounding box and merge protocol.

    - C++ [int] coordinates are integers of [Z] kept in the 32-bit signed
      range; the result of [+] and [-] on [int] is brought back to this range
      by [Int32.to_int] (two's complement wrap-around, what the targeted
      compilers emit where the standard leaves overflow undefined).
    - [static_cast<uint32_t>] is reduction modulo [2^32].
    - [std::unordered_set<Point3D>] is a [gset Point3D].
    - [std::array<uint32_t, 6>] is a record of six components read and
      written through an index.
    - [std::shared_ptr<Interface>] is a location of a heap of objects, so
      that the same object may be reached from the registry, from the list
      of segments to merge and as [this]. *)

From Stdlib Require Import ZArith Lia.
From stdpp Require Import gmap list.

Local Open Scope Z_scope.

(* ===================================================================== *)
(** ** Machine integers *)
(* ===================================================================== *)

Module Int32.

Definition modulus : Z := 4294967296.
Definition half_modulus : Z := 2147483648.

Definition UINT32_MAX : Z := 4294967295.
Definition INT_MIN : Z := -2147483648.
Definition INT_MAX : Z := 2147483647.

(** [static_cast<uint32_t>(e)] for an [int] expression [e]. *)
Definition to_u32 (z : Z) : Z := z mod modulus.

(** The [int] that holds the mathematical result [z]. *)
Definition to_int (z : Z) : Z := (z + half_modulus) mod modulus - half_modulus.

Definition int_add (a b : Z) : Z := to_int (a + b).
Definition int_sub (a b : Z) : Z := to_int (a - b).

Definition is_int (z : Z) : Prop := INT_MIN <= z <= INT_MAX.
Definition is_u32 (z : Z) : Prop := 0 <= z <= UINT32_MAX.

(** [std::min(a, b)] is [(b < a) ? b : a];
    [std::max(a, b)] is [(a < b) ? b : a]. *)
Definition std_min (a b : Z) : Z := if b <? a then b else a.
Definition std_max (a b : Z) : Z := if a <? b then b else a.

End Int32.

Import Int32.

(* ===================================================================== *)
(** ** Lattice points *)
(* ===================================================================== *)

(** Modelled from the spec: the struct [Point3D] is declared in the header
    [Interface.h], which is not among the sources.  The specification
    describes it as an integer 3-coordinate (x, y, z), signed, hashed and
    compared by value; [Interface.cpp] builds it from three [int]s and reads
    the members [x], [y] and [z]. *)
Record Point3D : Type := mkPoint3D { x : Z; y : Z; z : Z }.

Definition Point3D_to_tuple (p : Point3D) : Z * Z * Z := (x p, y p, z p).
Definition Point3D_of_tuple (t : Z * Z * Z) : Point3D :=
  mkPoint3D t.1.1 t.1.2 t.2.

#[global] Instance Point3D_eq_dec : EqDecision Point3D.
Proof. solve_decision. Defined.

#[global] Instance Point3D_countable : Countable Point3D.
Proof.
  apply (inj_countable' Point3D_to_tuple Point3D_of_tuple).
  intros [a b c]. reflexivity.
Defined.

(** A point whose three coordinates are values of type [int]. *)
Definition is_int_point (p : Point3D) : Prop :=
  is_int (x p) /\ is_int (y p) /\ is_int (z p).

(* ===================================================================== *)
(** ** Bounding boxes: [std::array<uint32_t, 6>] *)
(* ===================================================================== *)

Record BBox : Type := mkBBox {
  minX : Z; minY : Z; minZ : Z;
  maxX : Z; maxY : Z; maxZ : Z
}.

#[global] Instance BBox_eq_dec : EqDecision BBox.
Proof. solve_decision. Defined.

(** [b[i]] for [i] in [0..5]. *)
Definition bbox_get (b : BBox) (i : nat) : Z :=
  match i with
  | 0%nat => minX b
  | 1%nat => minY b
  | 2%nat => minZ b
  | 3%nat => maxX b
  | 4%nat => maxY b
  | _ => maxZ b
  end.

(** [b[i] = v] for [i] in [0..5]. *)
Definition bbox_set (b : BBox) (i : nat) (v : Z) : BBox :=
  match i with
  | 0%nat => mkBBox v (minY b) (minZ b) (maxX b) (maxY b) (maxZ b)
  | 1%nat => mkBBox (minX b) v (minZ b) (maxX b) (maxY b) (maxZ b)
  | 2%nat => mkBBox (minX b) (minY b) v (maxX b) (maxY b) (maxZ b)
  | 3%nat => mkBBox (minX b) (minY b) (minZ b) v (maxY b) (maxZ b)
  | 4%nat => mkBBox (minX b) (minY b) (minZ b) (maxX b) v (maxZ b)
  | _ => mkBBox (minX b) (minY b) (minZ b) (maxX b) (maxY b) v
  end.

(** All six components are values of type [uint32_t]. *)
Definition is_u32_box (b : BBox) : Prop :=
  is_u32 (minX b) /\ is_u32 (minY b) /\ is_u32 (minZ b) /\
  is_u32 (maxX b) /\ is_u32 (maxY b) /\ is_u32 (maxZ b).

(** The box the constructor installs:
    [{UINT32_MAX, UINT32_MAX, UINT32_MAX, 0, 0, 0}]. *)
Definition sentinel_bbox : BBox :=
  mkBBox UINT32_MAX UINT32_MAX UINT32_MAX 0 0 0.

(* ===================================================================== *)
(** ** The class [Interface] *)
(* ===================================================================== *)

Module Packing.

(** Modelled from the spec: the class declaration is in the header
    [Interface.h], which is not among the sources.  The members are those
    [Interface.cpp] uses: the [int] [id] (read through [getId()]), the set
    of points [segment] and the box [bbox] of six [uint32_t]. *)
Record Interface : Type := mkInterface {
  id : Z;
  segment : gset Point3D;
  bbox : BBox
}.

(** [Interface::Interface(int id)]. *)
Definition Interface_new (i : Z) : Interface :=
  mkInterface i ∅ sentinel_bbox.

(** The offset tables of [addPoint]. *)
Definition dx : list Z :=
  [0; -1; 1; 0; 0; 0; 0; -1; -1; 1; 1; -1; -1; 1; 1; 0; 0; 0; 0].
Definition dy : list Z :=
  [0; 0; 0; -1; 1; 0; 0; -1; 1; -1; 1; 0; 0; 0; 0; -1; -1; 1; 1].
Definition dz : list Z :=
  [0; 0; 0; 0; 0; -1; 1; 0; 0; 0; 0; -1; 1; -1; 1; -1; 1; -1; 1].

(** [Point3D neighborPoint(point.x + dx[i], point.y + dy[i], point.z + dz[i])]. *)
Definition neighborPoint (point : Point3D) (i : nat) : Point3D :=
  mkPoint3D (int_add (x point) (nth i dx 0))
            (int_add (y point) (nth i dy 0))
            (int_add (z point) (nth i dz 0)).

(** [Interface::mergeBbox]: the two loops over the indices [0..2] and
    [3..5], applied to the box of [this]. *)
Definition mergeBbox (otherBbox : BBox) (bbox : BBox) : BBox :=
  let bbox :=
    foldl (fun bb i => bbox_set bb i (std_min (bbox_get otherBbox i) (bbox_get bb i)))
          bbox [0; 1; 2]%nat in
  foldl (fun bb i => bbox_set bb i (std_max (bbox_get otherBbox i) (bbox_get bb i)))
        bbox [3; 4; 5]%nat.

(** [Interface::addPoint]. *)
Definition addPoint (point : Point3D) (this : Interface) : Interface :=
  let seg :=
    foldl (fun seg i => {[ neighborPoint point i ]} ∪ seg)
          (segment this) (seq 0 19) in
  let pointBbox :=
    mkBBox (to_u32 (int_sub (x point) 1))
           (to_u32 (int_sub (y point) 1))
           (to_u32 (int_sub (z point) 1))
           (to_u32 (int_add (x point) 1))
           (to_u32 (int_add (y point) 1))
           (to_u32 (int_add (z point) 1)) in
  mkInterface (id this) seg (mergeBbox pointBbox (bbox this)).

(** [Interface::withinBbox]. *)
Definition withinBbox (this : Interface) (point : Point3D) : bool :=
  (bbox_get (bbox this) 0 <? to_u32 (x point)) &&
  (bbox_get (bbox this) 1 <? to_u32 (y point)) &&
  (bbox_get (bbox this) 2 <? to_u32 (z point)) &&
  (to_u32 (x point) <? bbox_get (bbox this) 3) &&
  (to_u32 (y point) <? bbox_get (bbox this) 4) &&
  (to_u32 (z point) <? bbox_get (bbox this) 5).

(** [Interface::contains]. *)
Definition contains (this : Interface) (point : Point3D) : bool :=
  bool_decide (point ∈ segment this).

(** A run of [addPoint] calls, first point first. *)
Definition addPoints (points : list Point3D) (this : Interface) : Interface :=
  foldl (fun s p => addPoint p s) this points.

End Packing.

Import Packing.

(* ===================================================================== *)
(** ** Shared objects and the registry *)
(* ===================================================================== *)

(** A [std::shared_ptr<Interface>] is a location; the objects live in a
    heap.  The registry [std::unordered_map<int, std::shared_ptr<Interface>>]
    maps ids to locations. *)
Abbreviation loc := positive (only parsing).

Record World : Type := mkWorld {
  heap : gmap positive Interface;
  interfacialSegments : gmap Z positive
}.

(** State passing with failure: a computation that dereferences a pointer
    to no object has no result. *)
Module Mem.

Definition M (A : Type) : Type := World -> option (A * World).

Definition ret {A : Type} (a : A) : M A := fun w => Some (a, w).

Definition bind {A B : Type} (m : M A) (k : A -> M B) : M B :=
  fun w => match m w with
           | Some (a, w') => k a w'
           | None => None
           end.

(** [*p] *)
Definition deref (p : loc) : M Interface :=
  fun w => match heap w !! p with
           | Some o => Some (o, w)
           | None => None
           end.

(** [*p = o] *)
Definition assign (p : loc) (o : Interface) : M unit :=
  fun w => Some (tt, mkWorld (<[p := o]> (heap w)) (interfacialSegments w)).

(** [interfacialSegments.erase(k)] *)
Definition erase (k : Z) : M unit :=
  fun w => Some (tt, mkWorld (heap w) (delete k (interfacialSegments w))).

(** [for (x : xs) body(x);] *)
Fixpoint for_each {A : Type} (body : A -> M unit) (xs : list A) : M unit :=
  match xs with
  | [] => ret tt
  | a :: rest => bind (body a) (fun _ => for_each body rest)
  end.

End Mem.

Import Mem.

Declare Scope mem_scope.
Delimit Scope mem_scope with mem.
Notation "'do' v <- m ; k" := (bind m (fun v => k))
  (at level 10, v name, m at level 100, k at level 200) : mem_scope.
Notation "'run' m ; k" := (bind m (fun _ => k))
  (at level 10, m at level 100, k at level 200) : mem_scope.

Module Heap.

Local Open Scope mem_scope.

(** [segment.insert(elem)] on the object [this] points to. *)
Definition segment_insert (this : loc) (elem : Point3D) : M unit :=
  do me <- deref this;
  assign this (mkInterface (id me) ({[ elem ]} ∪ segment me) (bbox me)).

(** [this->mergeBbox(otherBbox)]. *)
Definition mergeBbox_at (this : loc) (otherBbox : BBox) : M unit :=
  do me <- deref this;
  assign this (mkInterface (id me) (segment me) (mergeBbox otherBbox (bbox me))).

(** One iteration of the loop of [mergeSegments] over [mergingSegments]. *)
Definition merge_one (this it : loc) : M unit :=
  do other <- deref it;
  do me <- deref this;
  if decide (id other = id me) then ret tt
  else
    run for_each (segment_insert this) (elements (segment other));
    do other <- deref it;
    run mergeBbox_at this (bbox other);
    do other <- deref it;
    erase (id other).

(** [Interface::mergeSegments], called on the object at [this]. *)
Definition mergeSegments (this : loc) (mergingSegments : list loc) : M bool :=
  match mergingSegments with
  | [] => ret false
  | _ :: _ =>
      run for_each (merge_one this) mergingSegments;
      ret true
  end.

End Heap.

Import Heap.

(* ===================================================================== *)
(** ** Notions of the specification *)
(* ===================================================================== *)

(** The dilation set as the specification lists it: the zero offset, the
    six face neighbours and the twelve edge neighbours. *)
Definition zero_offset : Z * Z * Z := (0, 0, 0).

Definition face_offsets : list (Z * Z * Z) :=
  [(-1,0,0); (1,0,0); (0,-1,0); (0,1,0); (0,0,-1); (0,0,1)].

Definition edge_offsets : list (Z * Z * Z) :=
  [(-1,-1,0); (-1,1,0); (1,-1,0); (1,1,0);
   (-1,0,-1); (-1,0,1); (1,0,-1); (1,0,1);
   (0,-1,-1); (0,-1,1); (0,1,-1); (0,1,1)].

Definition neighbor_offsets : list (Z * Z * Z) := face_offsets ++ edge_offsets.

Definition dilation_offsets : list (Z * Z * Z) := zero_offset :: neighbor_offsets.

(** The eight full-diagonal neighbours. *)
Definition corner_offsets : list (Z * Z * Z) :=
  [(-1,-1,-1); (-1,-1,1); (-1,1,-1); (-1,1,1);
   (1,-1,-1); (1,-1,1); (1,1,-1); (1,1,1)].

(** An offset whose components are [-1], [0] or [1]. *)
Definition is_unit_offset (o : Z * Z * Z) : Prop :=
  (-1 <= o.1.1 <= 1) /\ (-1 <= o.1.2 <= 1) /\ (-1 <= o.2 <= 1).

(** [p] moved by an offset, in [int] arithmetic. *)
Definition offset (p : Point3D) (o : Z * Z * Z) : Point3D :=
  mkPoint3D (int_add (x p) o.1.1) (int_add (y p) o.1.2) (int_add (z p) o.2).

(** The candidate box of one directly added point. *)
Definition point_box (p : Point3D) : BBox :=
  mkBBox (to_u32 (int_sub (x p) 1)) (to_u32 (int_sub (y p) 1)) (to_u32 (int_sub (z p) 1))
         (to_u32 (int_add (x p) 1)) (to_u32 (int_add (y p) 1)) (to_u32 (int_add (z p) 1)).

(** Componentwise combination of a box with a list of boxes: the least of
    the min components and the greatest of the max components. *)
Definition bbox_hull (b : BBox) (bs : list BBox) : BBox :=
  mkBBox (foldr Z.min (minX b) (minX <$> bs))
         (foldr Z.min (minY b) (minY <$> bs))
         (foldr Z.min (minZ b) (minZ <$> bs))
         (foldr Z.max (maxX b) (maxX <$> bs))
         (foldr Z.max (maxY b) (maxY <$> bs))
         (foldr Z.max (maxZ b) (maxZ <$> bs)).

(** The box the specification expects after adding [p] and then [ps]: the
    least converted [coordinate - 1] and the greatest converted
    [coordinate + 1] over the directly added points. *)
Definition expected_bbox (p : Point3D) (ps : list Point3D) : BBox :=
  bbox_hull (point_box p) (point_box <$> ps).

(** The same box in plain integers: the least and greatest coordinates of
    the directly added points, widened by one. *)
Definition widened_extent (p : Point3D) (ps : list Point3D) : BBox :=
  mkBBox (foldr Z.min (x p) (x <$> ps) - 1)
         (foldr Z.min (y p) (y <$> ps) - 1)
         (foldr Z.min (z p) (z <$> ps) - 1)
         (foldr Z.max (x p) (x <$> ps) + 1)
         (foldr Z.max (y p) (y <$> ps) + 1)
         (foldr Z.max (z p) (z <$> ps) + 1).

(** The box as the claim on [addPoint] runs words it: the least and
    greatest coordinates of the directly added points are taken first, then
    widened by one in [int] arithmetic, then converted to [uint32_t]. *)
Definition converted_widened_extent (p : Point3D) (ps : list Point3D) : BBox :=
  mkBBox (to_u32 (int_sub (foldr Z.min (x p) (x <$> ps)) 1))
         (to_u32 (int_sub (foldr Z.min (y p) (y <$> ps)) 1))
         (to_u32 (int_sub (foldr Z.min (z p) (z <$> ps)) 1))
         (to_u32 (int_add (foldr Z.max (x p) (x <$> ps)) 1))
         (to_u32 (int_add (foldr Z.max (y p) (y <$> ps)) 1))
         (to_u32 (int_add (foldr Z.max (z p) (z <$> ps)) 1)).

(** Coordinates for which neither [coordinate - 1] nor [coordinate + 1]
    leaves the range shared by [int] and [uint32_t]. *)
Definition is_interior_point (p : Point3D) : Prop :=
  (1 <= x p < INT_MAX) /\ (1 <= y p < INT_MAX) /\ (1 <= z p < INT_MAX).

(** [b'] extends [b]: no min component is greater, no max component less. *)
Definition bbox_grows (b b' : BBox) : Prop :=
  minX b' <= minX b /\ minY b' <= minY b /\ minZ b' <= minZ b /\
  maxX b <= maxX b' /\ maxY b <= maxY b' /\ maxZ b <= maxZ b'.

(** The destination after it absorbed [other]. *)
Definition absorb_into (me other : Interface) : Interface :=
  mkInterface (id me) (segment me ∪ segment other) (mergeBbox (bbox other) (bbox me)).

(** The destination after it absorbed the objects of a list, in order. *)
Definition merged (me : Interface) (others : list Interface) : Interface :=
  foldl absorb_into me others.

(** The objects a list of pointers refers to. *)
Definition pointees (h : gmap positive Interface) (ps : list positive) : list Interface :=
  omap (fun p => h !! p) ps.

(** The objects of the list that the loop does not skip. *)
Definition absorbed (h : gmap positive Interface) (me : Interface) (ps : list positive)
  : list Interface :=
  filter (fun o => id o ≠ id me) (pointees h ps).

(** Every pointer of the list refers to an object. *)
Definition all_allocated (h : gmap positive Interface) (ps : list positive) : Prop :=
  Forall (fun p => is_Some (h !! p)) ps.

(** The registry after the entries of the given ids were erased. *)
Definition erase_all (r : gmap Z positive) (os : list Interface) : gmap Z positive :=
  foldl (fun r o => delete (id o) r) r os.

(** The scenario of two segments: [A] (id 1) holds the dilation of
    [(0,0,0)], [B] (id 2) that of [(10,10,10)], and the registry is
    [{1: A, 2: B}]. *)
Definition segment_A : Interface := addPoint (mkPoint3D 0 0 0) (Interface_new 1).
Definition segment_B : Interface := addPoint (mkPoint3D 10 10 10) (Interface_new 2).

Definition two_segments : World :=
  mkWorld (<[1%positive := segment_A]> (<[2%positive := segment_B]> ∅))
          (<[1 := 1%positive]> (<[2 := 2%positive]> ∅)).

(** [q] lies in the box [b], boundary included, after the conversion
    [withinBbox] applies to its coordinates. *)
Definition in_closed_box (b : BBox) (q : Point3D) : Prop :=
  (minX b <= to_u32 (x q) <= maxX b) /\
  (minY b <= to_u32 (y q) <= maxY b) /\
  (minZ b <= to_u32 (z q) <= maxZ b).

(** Every point of the segment lies in its box, boundary included. *)
Definition points_in_closed_box (s : Interface) : Prop :=
  forall q, q ∈ segment s -> in_closed_box (bbox s) q.

(** No coordinate of the point is [0] or [-1]: neither [coordinate - 1]
    nor [coordinate + 1] changes sign. *)
Definition is_off_zero (p : Point3D) : Prop :=
  (x p <> 0 /\ x p <> -1) /\ (y p <> 0 /\ y p <> -1) /\ (z p <> 0 /\ z p <> -1).

(** Every object of the heap has a box of [uint32_t] components. *)
Definition heap_boxes_u32 (h : gmap positive Interface) : Prop :=
  forall p o, h !! p = Some o -> is_u32_box (bbox o).

(** Every object of the heap has its points in its closed box. *)
Definition heap_points_in_boxes (h : gmap positive Interface) : Prop :=
  forall p o, h !! p = Some o -> points_in_closed_box o.

(** [p->addPoint(point)] on an object of the heap. *)
Definition addPoint_at (this : loc) (point : Point3D) : M unit :=
  bind (deref this) (fun me => assign this (addPoint point me)).

(* ===================================================================== *)
(** ** Facts on machine integers *)
(* ===================================================================== *)

Lemma to_u32_is_u32 (n : Z) : is_u32 (to_u32 n).
Proof.
  unfold is_u32, to_u32, UINT32_MAX, modulus.
  pose proof (Z.mod_pos_bound n 4294967296). lia.
Qed.

Lemma to_int_is_int (n : Z) : is_int (to_int n).
Proof.
  unfold is_int, to_int, INT_MIN, INT_MAX, modulus, half_modulus.
  pose proof (Z.mod_pos_bound (n + 2147483648) 4294967296). lia.
Qed.

Lemma to_int_of_int (n : Z) : is_int n -> to_int n = n.
Proof.
  unfold is_int, to_int, INT_MIN, INT_MAX, modulus, half_modulus.
  intros Hn. rewrite Z.mod_small; lia.
Qed.

Lemma to_u32_of_u32 (n : Z) : is_u32 n -> to_u32 n = n.
Proof.
  unfold is_u32, to_u32, UINT32_MAX, modulus.
  intros Hn. rewrite Z.mod_small; lia.
Qed.

(** Converting the wrapped [int] or the exact result gives the same
    [uint32_t]. *)
Lemma to_u32_to_int (n : Z) : to_u32 (to_int n) = to_u32 n.
Proof.
  unfold to_u32, to_int.
  rewrite Zminus_mod_idemp_l. f_equal. lia.
Qed.

(** Two exact results less than [2^32] apart stay apart as [int]s. *)
Lemma to_int_inj_near (a b : Z) :
  - modulus < a - b < modulus -> to_int a = to_int b -> a = b.
Proof.
  unfold to_int, modulus, half_modulus. intros Hab Heq.
  pose proof (Z.div_mod (a + 2147483648) 4294967296 ltac:(lia)) as Ha.
  pose proof (Z.div_mod (b + 2147483648) 4294967296 ltac:(lia)) as Hb.
  lia.
Qed.

Lemma int_add_0_r (n : Z) : is_int n -> int_add n 0 = n.
Proof. intros Hn. unfold int_add. rewrite Z.add_0_r. by apply to_int_of_int. Qed.

Lemma std_min_is_min (a b : Z) : std_min a b = Z.min a b.
Proof. unfold std_min. destruct (Z.ltb_spec b a); lia. Qed.

Lemma std_max_is_max (a b : Z) : std_max a b = Z.max a b.
Proof. unfold std_max. destruct (Z.ltb_spec a b); lia. Qed.

(* ===================================================================== *)
(** ** Bounding boxes *)
(* ===================================================================== *)

Lemma BBox_eq (a b : BBox) :
  minX a = minX b -> minY a = minY b -> minZ a = minZ b ->
  maxX a = maxX b -> maxY a = maxY b -> maxZ a = maxZ b -> a = b.
Proof. destruct a, b; simpl; congruence. Qed.

(** The two loops of [mergeBbox], run. *)
Lemma mergeBbox_components (o b : BBox) :
  mergeBbox o b =
  mkBBox (Z.min (minX o) (minX b)) (Z.min (minY o) (minY b)) (Z.min (minZ o) (minZ b))
         (Z.max (maxX o) (maxX b)) (Z.max (maxY o) (maxY b)) (Z.max (maxZ o) (maxZ b)).
Proof.
  unfold mergeBbox. cbn [foldl bbox_set bbox_get minX minY minZ maxX maxY maxZ].
  by rewrite !std_min_is_min, !std_max_is_max.
Qed.

Lemma mergeBbox_comm (a b : BBox) : mergeBbox a b = mergeBbox b a.
Proof. rewrite !mergeBbox_components. apply BBox_eq; simpl; lia. Qed.

Lemma mergeBbox_assoc (a b c : BBox) :
  mergeBbox a (mergeBbox b c) = mergeBbox (mergeBbox a b) c.
Proof. rewrite !mergeBbox_components. apply BBox_eq; simpl; lia. Qed.

Lemma mergeBbox_sentinel_l (b : BBox) :
  is_u32_box b -> mergeBbox sentinel_bbox b = b.
Proof.
  unfold is_u32_box, is_u32, UINT32_MAX. intros Hb.
  rewrite mergeBbox_components.
  apply BBox_eq; unfold sentinel_bbox, UINT32_MAX;
    cbn [minX minY minZ maxX maxY maxZ]; lia.
Qed.

Lemma mergeBbox_grows (o b : BBox) : bbox_grows b (mergeBbox o b).
Proof. rewrite mergeBbox_components. unfold bbox_grows; simpl. lia. Qed.

Lemma bbox_grows_refl (b : BBox) : bbox_grows b b.
Proof. unfold bbox_grows. lia. Qed.

Lemma bbox_grows_trans (a b c : BBox) :
  bbox_grows a b -> bbox_grows b c -> bbox_grows a c.
Proof. unfold bbox_grows. lia. Qed.

Lemma mergeBbox_is_u32_box (o b : BBox) :
  is_u32_box o -> is_u32_box b -> is_u32_box (mergeBbox o b).
Proof.
  unfold is_u32_box, is_u32. intros Ho Hb.
  rewrite mergeBbox_components; simpl. lia.
Qed.

Lemma point_box_is_u32_box (p : Point3D) : is_u32_box (point_box p).
Proof. unfold is_u32_box, point_box; simpl. repeat split; apply to_u32_is_u32. Qed.

Lemma foldr_min_init (l : list Z) (u v : Z) :
  foldr Z.min (Z.min u v) l = Z.min u (foldr Z.min v l).
Proof. induction l as [|c l IH]; simpl; [done|]. rewrite IH. lia. Qed.

Lemma foldr_max_init (l : list Z) (u v : Z) :
  foldr Z.max (Z.max u v) l = Z.max u (foldr Z.max v l).
Proof. induction l as [|c l IH]; simpl; [done|]. rewrite IH. lia. Qed.

(** Folding [mergeBbox] over a list of boxes computes their hull. *)
Lemma foldl_mergeBbox_hull (bs : list BBox) (b : BBox) :
  foldl (fun acc o => mergeBbox o acc) b bs = bbox_hull b bs.
Proof.
  revert b. induction bs as [|o bs IH]; intros b.
  - by destruct b.
  - cbn [foldl]. rewrite IH, mergeBbox_components.
    unfold bbox_hull. cbn [fmap list_fmap foldr minX minY minZ maxX maxY maxZ].
    by rewrite !foldr_min_init, !foldr_max_init.
Qed.

(* ===================================================================== *)
(** ** [addPoint]: the point set *)
(* ===================================================================== *)

Lemma foldl_insert_union {B : Type} (f : B -> Point3D) (l : list B) (s : gset Point3D) :
  foldl (fun seg e => {[ f e ]} ∪ seg) s l = s ∪ list_to_set (f <$> l).
Proof.
  revert s. induction l as [|a l IH]; intros s; cbn [foldl].
  - cbn. by rewrite (right_id_L ∅ (∪)).
  - rewrite IH. cbn [fmap list_fmap list_to_set].
    by rewrite (comm_L (∪) {[ f a ]} s), <- (assoc_L (∪)).
Qed.

(** The three offset tables, read index by index, are the dilation set of
    the specification, in its order. *)
Lemma neighborPoint_offsets (p : Point3D) :
  neighborPoint p <$> seq 0 19 = offset p <$> dilation_offsets.
Proof. reflexivity. Qed.

Lemma addPoint_segment (p : Point3D) (this : Interface) :
  segment (addPoint p this) = segment this ∪ list_to_set (offset p <$> dilation_offsets).
Proof.
  unfold addPoint. cbn [segment].
  by rewrite foldl_insert_union, neighborPoint_offsets.
Qed.

Lemma addPoint_bbox (p : Point3D) (this : Interface) :
  bbox (addPoint p this) = mergeBbox (point_box p) (bbox this).
Proof. reflexivity. Qed.

Lemma addPoint_id (p : Point3D) (this : Interface) : id (addPoint p this) = id this.
Proof. reflexivity. Qed.

Lemma offset_inj (p : Point3D) (a b : Z * Z * Z) :
  is_unit_offset a -> is_unit_offset b -> offset p a = offset p b -> a = b.
Proof.
  destruct a as [[a1 a2] a3], b as [[b1 b2] b3].
  unfold is_unit_offset, offset, int_add; cbn [fst snd].
  intros (Ha1 & Ha2 & Ha3) (Hb1 & Hb2 & Hb3) Heq.
  pose proof (f_equal x Heq) as Hx. pose proof (f_equal y Heq) as Hy.
  pose proof (f_equal z Heq) as Hz. cbn [x y z] in Hx, Hy, Hz.
  apply to_int_inj_near in Hx; [|unfold modulus; lia].
  apply to_int_inj_near in Hy; [|unfold modulus; lia].
  apply to_int_inj_near in Hz; [|unfold modulus; lia].
  repeat f_equal; lia.
Qed.

Lemma dilation_offsets_unit : Forall is_unit_offset dilation_offsets.
Proof. repeat constructor; cbn; lia. Qed.

Lemma corner_offsets_unit : Forall is_unit_offset corner_offsets.
Proof. repeat constructor; cbn; lia. Qed.

Lemma dilation_offsets_NoDup : NoDup dilation_offsets.
Proof. compute_done. Qed.

Lemma corner_not_dilation (c : Z * Z * Z) :
  c ∈ corner_offsets -> c ∉ dilation_offsets.
Proof.
  intros Hc.
  assert (H : Forall (fun c => c ∉ dilation_offsets) corner_offsets)
    by compute_done.
  rewrite Forall_forall in H. by apply H.
Qed.

Lemma offset_zero (p : Point3D) : is_int_point p -> offset p zero_offset = p.
Proof.
  destruct p as [a b c]. unfold is_int_point, offset; cbn.
  intros (Ha & Hb & Hc). by rewrite !int_add_0_r.
Qed.

Lemma dilated_points_NoDup (p : Point3D) : NoDup (offset p <$> dilation_offsets).
Proof.
  apply NoDup_fmap_2_strong; [|apply dilation_offsets_NoDup].
  intros a b Ha Hb. pose proof dilation_offsets_unit as Hu.
  rewrite Forall_forall in Hu. apply offset_inj; auto.
Qed.

Lemma corner_not_dilated (p : Point3D) (c : Z * Z * Z) :
  c ∈ corner_offsets -> offset p c ∉ offset p <$> dilation_offsets.
Proof.
  intros Hc (o & Heq & Ho)%list_elem_of_fmap.
  pose proof dilation_offsets_unit as Hd. pose proof corner_offsets_unit as Hk.
  rewrite Forall_forall in Hd, Hk.
  apply offset_inj in Heq; auto. subst o.
  by apply (corner_not_dilation c).
Qed.

(** C1. [addPoint(p)] adds to the point set exactly the nineteen points
    [p + o], [o] ranging over the zero offset, the six face offsets and the
    twelve edge offsets (nineteen distinct points); afterwards [contains]
    holds of [p] and of each of its eighteen neighbours, and for each of
    the eight corner offsets it holds exactly when the point was in the
    set before. *)
Theorem addPoint_dilates (this : Interface) (p : Point3D) (Hp : is_int_point p) :
  segment (addPoint p this)
    = segment this ∪ list_to_set (offset p <$> dilation_offsets) /\
  length dilation_offsets = 19%nat /\
  length neighbor_offsets = 18%nat /\
  length corner_offsets = 8%nat /\
  NoDup (offset p <$> dilation_offsets) /\
  contains (addPoint p this) p = true /\
  (forall o, o ∈ neighbor_offsets -> contains (addPoint p this) (offset p o) = true) /\
  (forall c, c ∈ corner_offsets ->
     contains (addPoint p this) (offset p c) = contains this (offset p c)).
Proof.
  split; [apply addPoint_segment|].
  do 3 (split; [reflexivity|]).
  split; [apply dilated_points_NoDup|].
  unfold contains. rewrite addPoint_segment.
  split; [|split].
  - apply bool_decide_eq_true. apply elem_of_union_r, elem_of_list_to_set.
    apply list_elem_of_fmap. exists zero_offset. split.
    + symmetry. by apply offset_zero.
    + unfold dilation_offsets. apply list_elem_of_here.
  - intros o Ho. apply bool_decide_eq_true.
    apply elem_of_union_r, elem_of_list_to_set, list_elem_of_fmap.
    exists o. split; [done|]. unfold dilation_offsets. by apply list_elem_of_further.
  - intros c Hc. apply bool_decide_ext.
    rewrite elem_of_union, elem_of_list_to_set.
    pose proof (corner_not_dilated p c Hc). tauto.
Qed.

Lemma addPoint_dilates_witness :
  contains (addPoint (mkPoint3D 5 5 5) (Interface_new 1)) (mkPoint3D 6 6 5) = true /\
  contains (addPoint (mkPoint3D 5 5 5) (Interface_new 1)) (mkPoint3D 6 6 6) = false.
Proof.
  assert (Hp : is_int_point (mkPoint3D 5 5 5)).
  { unfold is_int_point, is_int, INT_MIN, INT_MAX; cbn. lia. }
  destruct (addPoint_dilates (Interface_new 1) (mkPoint3D 5 5 5) Hp)
    as (_ & _ & _ & _ & _ & _ & Hn & Hc).
  split.
  - apply (Hn (1, 1, 0)). unfold neighbor_offsets, face_offsets, edge_offsets.
    cbn [app]. do 9 apply list_elem_of_further. apply list_elem_of_here.
  - change (mkPoint3D 6 6 6) with (offset (mkPoint3D 5 5 5) (1, 1, 1)).
    rewrite (Hc (1, 1, 1)).
    + unfold contains, Interface_new; cbn [segment].
      apply bool_decide_eq_false. apply not_elem_of_empty.
    + unfold corner_offsets. do 7 apply list_elem_of_further. apply list_elem_of_here.
Defined.

(* ===================================================================== *)
(** ** [addPoint]: the bounding box *)
(* ===================================================================== *)

Lemma addPoints_bbox (ps : list Point3D) (this : Interface) :
  bbox (addPoints ps this) = bbox_hull (bbox this) (point_box <$> ps).
Proof.
  rewrite <- foldl_mergeBbox_hull. unfold addPoints.
  revert this. induction ps as [|p ps IH]; intros this; cbn [foldl fmap list_fmap].
  - done.
  - by rewrite IH, addPoint_bbox.
Qed.

Lemma addPoints_id (ps : list Point3D) (this : Interface) :
  id (addPoints ps this) = id this.
Proof.
  unfold addPoints. revert this.
  induction ps as [|p ps IH]; intros this; cbn [foldl]; [done|].
  by rewrite IH, addPoint_id.
Qed.

(** The first point added to a fresh segment replaces the sentinel box. *)
Lemma addPoint_fresh_bbox (i : Z) (p : Point3D) :
  bbox (addPoint p (Interface_new i)) = point_box p.
Proof.
  rewrite addPoint_bbox. cbn [Interface_new bbox].
  rewrite mergeBbox_comm. apply mergeBbox_sentinel_l, point_box_is_u32_box.
Qed.

Lemma interior_point_box (p : Point3D) :
  is_interior_point p ->
  point_box p = mkBBox (x p - 1) (y p - 1) (z p - 1) (x p + 1) (y p + 1) (z p + 1).
Proof.
  unfold is_interior_point, point_box, int_sub, int_add, INT_MAX.
  intros (Hx & Hy & Hz). rewrite !to_u32_to_int.
  rewrite !to_u32_of_u32; [done|unfold is_u32, UINT32_MAX; lia..].
Qed.

Lemma foldr_min_fmap_shift (f g : Point3D -> Z) (d a a' : Z) (ps : list Point3D) :
  a' = a + d -> Forall (fun q => g q = f q + d) ps ->
  foldr Z.min a' (g <$> ps) = foldr Z.min a (f <$> ps) + d.
Proof.
  intros -> Hall. induction Hall as [|q qs Hq _ IH]; cbn; [done|].
  rewrite IH, Hq. lia.
Qed.

Lemma foldr_max_fmap_shift (f g : Point3D -> Z) (d a a' : Z) (ps : list Point3D) :
  a' = a + d -> Forall (fun q => g q = f q + d) ps ->
  foldr Z.max a' (g <$> ps) = foldr Z.max a (f <$> ps) + d.
Proof.
  intros -> Hall. induction Hall as [|q qs Hq _ IH]; cbn; [done|].
  rewrite IH, Hq. lia.
Qed.

(** Away from the ends of the integer range the conversions change
    nothing, and the expected box is the extent of the points widened by
    one. *)
Lemma expected_bbox_widened (p : Point3D) (ps : list Point3D) :
  Forall is_interior_point (p :: ps) -> expected_bbox p ps = widened_extent p ps.
Proof.
  intros Hall. apply Forall_cons in Hall as [Hp Hps].
  unfold expected_bbox, bbox_hull, widened_extent.
  rewrite <- !list_fmap_compose, (interior_point_box p Hp).
  cbn [minX minY minZ maxX maxY maxZ].
  f_equal.
  1-3: apply foldr_min_fmap_shift; [lia|].
  4-6: apply foldr_max_fmap_shift; [lia|].
  all: eapply Forall_impl; [exact Hps|]; intros q Hq; unfold compose;
    rewrite (interior_point_box q Hq); cbn [minX minY minZ maxX maxY maxZ]; lia.
Qed.

(** C4, as amended. After [addPoint] of [p1..pn] on a fresh segment the
    box holds, in each min component, the least of the converted
    [coordinate - 1] and, in each max component, the greatest of the
    converted [coordinate + 1] of the directly added points: the conversion
    to [uint32_t] is applied point by point, before the least and greatest
    are taken.  When every coordinate is in [1 .. INT_MAX - 1] this is the
    least and greatest coordinate widened by exactly one; after
    [addPoint((5,5,5))] the box is [(4,4,4,6,6,6)]. *)
Theorem addPoints_bbox_widened (i : Z) (p : Point3D) (ps : list Point3D) :
  bbox (addPoints (p :: ps) (Interface_new i)) = expected_bbox p ps /\
  (Forall is_interior_point (p :: ps) ->
     bbox (addPoints (p :: ps) (Interface_new i)) = widened_extent p ps) /\
  bbox (addPoint (mkPoint3D 5 5 5) (Interface_new 1)) = mkBBox 4 4 4 6 6 6.
Proof.
  assert (Hgen : bbox (addPoints (p :: ps) (Interface_new i)) = expected_bbox p ps).
  { unfold addPoints. cbn [foldl]. fold (addPoints ps (addPoint p (Interface_new i))).
    by rewrite addPoints_bbox, addPoint_fresh_bbox. }
  split; [exact Hgen|]. split.
  - intros Hall. rewrite Hgen. by apply expected_bbox_widened.
  - rewrite addPoint_fresh_bbox. reflexivity.
Qed.

Lemma addPoints_bbox_widened_witness :
  bbox (addPoints [mkPoint3D 5 5 5; mkPoint3D 2 9 7] (Interface_new 1))
    = mkBBox 1 4 4 6 10 8.
Proof.
  destruct (addPoints_bbox_widened 1 (mkPoint3D 5 5 5) [mkPoint3D 2 9 7])
    as (_ & Hplain & _).
  rewrite Hplain; [reflexivity|].
  repeat constructor; cbn; unfold INT_MAX; lia.
Defined.

(** The claim C4 as stated takes the least and greatest coordinates
    first and converts afterwards.  After [addPoint((0,0,0))] and
    [addPoint((10,10,10))] on a fresh segment the code leaves
    [(9,9,9,11,11,11)]: the converted [0 - 1] is [UINT32_MAX] and loses
    against the [9] of the second point, where the claim's box has
    [UINT32_MAX] in its min components. *)
Lemma addPoints_bbox_converts_per_point :
  bbox (addPoints [mkPoint3D 0 0 0; mkPoint3D 10 10 10] (Interface_new 1))
    = mkBBox 9 9 9 11 11 11 /\
  converted_widened_extent (mkPoint3D 0 0 0) [mkPoint3D 10 10 10]
    = mkBBox UINT32_MAX UINT32_MAX UINT32_MAX 11 11 11 /\
  bbox (addPoints [mkPoint3D 0 0 0; mkPoint3D 10 10 10] (Interface_new 1))
    <> converted_widened_extent (mkPoint3D 0 0 0) [mkPoint3D 10 10 10].
Proof.
  assert (Hcode : bbox (addPoints [mkPoint3D 0 0 0; mkPoint3D 10 10 10] (Interface_new 1))
                  = mkBBox 9 9 9 11 11 11).
  { rewrite addPoints_bbox. reflexivity. }
  assert (Hclaim : converted_widened_extent (mkPoint3D 0 0 0) [mkPoint3D 10 10 10]
                   = mkBBox UINT32_MAX UINT32_MAX UINT32_MAX 11 11 11)
    by reflexivity.
  split; [exact Hcode|]. split; [exact Hclaim|].
  rewrite Hcode, Hclaim. discriminate.
Qed.

(* ===================================================================== *)
(** ** [withinBbox] *)
(* ===================================================================== *)

(** C8. On a segment to which no point was ever added, whose box is the
    sentinel, [withinBbox] is false for every point. *)
Theorem withinBbox_fresh_false (i : Z) (p : Point3D) :
  bbox (Interface_new i) = sentinel_bbox /\
  withinBbox (Interface_new i) p = false.
Proof.
  split; [reflexivity|].
  unfold withinBbox, Interface_new, sentinel_bbox.
  cbn [bbox bbox_get minX].
  pose proof (to_u32_is_u32 (x p)) as Hx. unfold is_u32 in Hx.
  destruct (Z.ltb_spec UINT32_MAX (to_u32 (x p))); [lia|reflexivity].
Qed.

Lemma withinBbox_true (this : Interface) (p : Point3D) :
  withinBbox this p = true <->
  minX (bbox this) < to_u32 (x p) < maxX (bbox this) /\
  minY (bbox this) < to_u32 (y p) < maxY (bbox this) /\
  minZ (bbox this) < to_u32 (z p) < maxZ (bbox this).
Proof.
  unfold withinBbox. cbn [bbox_get].
  rewrite !andb_true_iff, !Z.ltb_lt. tauto.
Qed.

(** A point within the box stays within it when the box grows. *)
Lemma withinBbox_grows (this that : Interface) (p : Point3D) :
  bbox_grows (bbox this) (bbox that) ->
  withinBbox this p = true -> withinBbox that p = true.
Proof. rewrite !withinBbox_true. unfold bbox_grows. lia. Qed.

(** A directly added point is strictly inside the box, away from the ends
    of the integer range. *)
Lemma addPoint_direct_within (this : Interface) (p : Point3D) :
  is_interior_point p -> withinBbox (addPoint p this) p = true.
Proof.
  intros Hp. rewrite withinBbox_true, addPoint_bbox, mergeBbox_components.
  rewrite (interior_point_box p Hp). cbn [minX minY minZ maxX maxY maxZ].
  unfold is_interior_point, INT_MAX in Hp.
  rewrite !to_u32_of_u32 by (unfold is_u32, UINT32_MAX; lia). lia.
Qed.

(** The points [addPoint] inserts lie in the closed box: a neighbour may
    lie on its boundary. *)
Lemma addPoint_dilated_in_closed_box (this : Interface) (p : Point3D) (o : Z * Z * Z) :
  is_interior_point p -> is_unit_offset o ->
  let b := bbox (addPoint p this) in
  let q := offset p o in
  minX b <= to_u32 (x q) <= maxX b /\
  minY b <= to_u32 (y q) <= maxY b /\
  minZ b <= to_u32 (z q) <= maxZ b.
Proof.
  intros Hp Ho. cbv zeta.
  rewrite addPoint_bbox, mergeBbox_components, (interior_point_box p Hp).
  destruct o as [[o1 o2] o3].
  unfold is_interior_point, INT_MAX in Hp. unfold is_unit_offset in Ho.
  unfold offset, int_add. cbn [fst snd x y z minX minY minZ maxX maxY maxZ] in *.
  rewrite !to_u32_to_int.
  rewrite !to_u32_of_u32 by (unfold is_u32, UINT32_MAX; lia). lia.
Qed.

(** At a coordinate [0] the converted [coordinate - 1] is [UINT32_MAX]:
    the box of the first point keeps the min components of the sentinel and
    rejects the point itself. *)
Lemma origin_not_within :
  bbox (addPoint (mkPoint3D 0 0 0) (Interface_new 1))
    = mkBBox UINT32_MAX UINT32_MAX UINT32_MAX 1 1 1 /\
  withinBbox (addPoint (mkPoint3D 0 0 0) (Interface_new 1)) (mkPoint3D 0 0 0) = false.
Proof.
  split.
  - rewrite addPoint_fresh_bbox. reflexivity.
  - unfold withinBbox. rewrite addPoint_fresh_bbox. reflexivity.
Qed.

(** C3. The face neighbour [(4,5,5)] that [addPoint((5,5,5))] inserts lies
    on the boundary of the box [(4,4,4,6,6,6)]: it is in the point set and
    [withinBbox] rejects it. *)
Theorem dilated_point_on_boundary :
  let s := addPoint (mkPoint3D 5 5 5) (Interface_new 1) in
  bbox s = mkBBox 4 4 4 6 6 6 /\
  contains s (mkPoint3D 4 5 5) = true /\
  withinBbox s (mkPoint3D 4 5 5) = false.
Proof.
  cbv zeta. split; [|split].
  - rewrite addPoint_fresh_bbox. reflexivity.
  - unfold contains. rewrite addPoint_segment. apply bool_decide_eq_true.
    apply elem_of_union_r, elem_of_list_to_set, list_elem_of_fmap.
    exists (-1, 0, 0). split; [reflexivity|].
    unfold dilation_offsets, neighbor_offsets, face_offsets.
    apply list_elem_of_further, list_elem_of_here.
  - unfold withinBbox. rewrite addPoint_fresh_bbox. reflexivity.
Qed.

(* ===================================================================== *)
(** ** [mergeBbox] as an operation on boxes *)
(* ===================================================================== *)

(** C5. [mergeBbox] keeps the smaller of the two values in each min
    component and the larger in each max component; it is commutative and
    associative, and the sentinel box is neutral for every box of
    [uint32_t] components. *)
Theorem mergeBbox_min_max (a b c : BBox) (Ha : is_u32_box a) :
  mergeBbox a b =
    mkBBox (Z.min (minX a) (minX b)) (Z.min (minY a) (minY b)) (Z.min (minZ a) (minZ b))
           (Z.max (maxX a) (maxX b)) (Z.max (maxY a) (maxY b)) (Z.max (maxZ a) (maxZ b)) /\
  mergeBbox a b = mergeBbox b a /\
  mergeBbox a (mergeBbox b c) = mergeBbox (mergeBbox a b) c /\
  mergeBbox sentinel_bbox a = a /\
  mergeBbox a sentinel_bbox = a.
Proof.
  split; [apply mergeBbox_components|].
  split; [apply mergeBbox_comm|].
  split; [apply mergeBbox_assoc|].
  split; [by apply mergeBbox_sentinel_l|].
  rewrite mergeBbox_comm. by apply mergeBbox_sentinel_l.
Qed.

Lemma mergeBbox_min_max_witness :
  mergeBbox (mkBBox 4 4 4 6 6 6) (mkBBox 2 5 9 3 8 10) = mkBBox 2 4 4 6 8 10 /\
  mergeBbox sentinel_bbox (mkBBox 4 4 4 6 6 6) = mkBBox 4 4 4 6 6 6.
Proof.
  assert (Ha : is_u32_box (mkBBox 4 4 4 6 6 6)).
  { unfold is_u32_box, is_u32, UINT32_MAX; cbn. lia. }
  destruct (mergeBbox_min_max (mkBBox 4 4 4 6 6 6) (mkBBox 2 5 9 3 8 10)
              sentinel_bbox Ha) as (Hc & _ & _ & Hs & _).
  split; [rewrite Hc; reflexivity|exact Hs].
Defined.

(* ===================================================================== *)
(** ** [mergeSegments]: one iteration *)
(* ===================================================================== *)

Lemma World_eta (w : World) : mkWorld (heap w) (interfacialSegments w) = w.
Proof. by destruct w. Qed.

Lemma Interface_eta (o : Interface) : mkInterface (id o) (segment o) (bbox o) = o.
Proof. by destruct o. Qed.

Lemma bind_Some {A B : Type} (m : M A) (k : A -> M B) (w w' : World) (a : A) :
  m w = Some (a, w') -> bind m k w = k a w'.
Proof. unfold bind. by intros ->. Qed.

Lemma deref_Some (p : positive) (w : World) (o : Interface) :
  heap w !! p = Some o -> deref p w = Some (o, w).
Proof. unfold deref. by intros ->. Qed.

(** Run a dereference whose pointee is known by [H]. *)
Ltac run_deref H := rewrite (bind_Some _ _ _ _ _ (deref_Some _ _ _ H)).

(** The loop [for (elem : other->segment) segment.insert(elem)]. *)
Lemma for_each_segment_insert (this : positive) (l : list Point3D)
    (w : World) (me : Interface) :
  heap w !! this = Some me ->
  for_each (segment_insert this) l w =
    Some (tt, mkWorld
                (<[this := mkInterface (id me) (segment me ∪ list_to_set l) (bbox me)]> (heap w))
                (interfacialSegments w)).
Proof.
  revert w me. induction l as [|a l IH]; intros w me Hme; cbn [for_each].
  - cbn [list_to_set]. rewrite (right_id_L ∅ (∪)), Interface_eta.
    rewrite (insert_id _ _ _ Hme). by rewrite World_eta.
  - unfold segment_insert at 1.
    rewrite (bind_Some _ _ w
               (mkWorld (<[this := mkInterface (id me) ({[ a ]} ∪ segment me) (bbox me)]> (heap w))
                        (interfacialSegments w)) tt).
    2:{ by run_deref Hme. }
    erewrite IH by (cbn [heap]; apply lookup_insert_eq).
    cbn [heap interfacialSegments id segment bbox list_to_set].
    rewrite insert_insert_eq.
    by rewrite (comm_L (∪) {[ a ]} (segment me)), <- (assoc_L (∪)).
Qed.

(** An entry whose id is the id of [this] is passed over. *)
Lemma merge_one_skip (this it : positive) (w : World) (me other : Interface) :
  heap w !! this = Some me -> heap w !! it = Some other -> id other = id me ->
  merge_one this it w = Some (tt, w).
Proof.
  intros Hme Hit Hid. unfold merge_one.
  run_deref Hit. run_deref Hme.
  by rewrite decide_True.
Qed.

(** Any other entry is absorbed and its id erased from the registry. *)
Lemma merge_one_absorb (this it : positive) (w : World) (me other : Interface) :
  heap w !! this = Some me -> heap w !! it = Some other -> id other ≠ id me ->
  merge_one this it w =
    Some (tt, mkWorld (<[this := absorb_into me other]> (heap w))
                      (delete (id other) (interfacialSegments w))).
Proof.
  intros Hme Hit Hid.
  assert (Hne : this ≠ it) by (intros ->; congruence).
  unfold merge_one.
  run_deref Hit. run_deref Hme.
  rewrite decide_False by done.
  rewrite (bind_Some _ _ _ _ _ (for_each_segment_insert this _ w me Hme)).
  rewrite list_to_set_elements_L.
  set (me1 := mkInterface (id me) (segment me ∪ segment other) (bbox me)).
  set (w1 := mkWorld (<[this := me1]> (heap w)) (interfacialSegments w)).
  assert (Hit1 : heap w1 !! it = Some other)
    by (cbn [w1 heap]; by rewrite lookup_insert_ne).
  assert (Hme1 : heap w1 !! this = Some me1)
    by (cbn [w1 heap]; apply lookup_insert_eq).
  run_deref Hit1.
  unfold mergeBbox_at.
  set (w2 := mkWorld (<[this := absorb_into me other]> (heap w)) (interfacialSegments w)).
  rewrite (bind_Some _ _ w1 w2 tt).
  2:{ run_deref Hme1.
      unfold assign, w2, w1, me1, absorb_into. cbn [heap interfacialSegments id segment bbox].
      by rewrite insert_insert_eq. }
  assert (Hit2 : heap w2 !! it = Some other)
    by (cbn [w2 heap]; by rewrite lookup_insert_ne).
  by run_deref Hit2.
Qed.

(* ===================================================================== *)
(** ** [mergeSegments]: the loop *)
(* ===================================================================== *)

Lemma pointees_cons (h : gmap positive Interface) (p : positive) (ps : list positive)
    (o : Interface) :
  h !! p = Some o -> pointees h (p :: ps) = o :: pointees h ps.
Proof. unfold pointees. cbn [omap list_omap]. by intros ->. Qed.

Lemma all_allocated_insert (h : gmap positive Interface) (p : positive) (o : Interface)
    (ps : list positive) :
  all_allocated h ps -> all_allocated (<[p := o]> h) ps.
Proof.
  unfold all_allocated. intros Hall.
  eapply Forall_impl; [exact Hall|]. intros q Hq. cbn beta in *.
  rewrite lookup_insert_is_Some. destruct (decide (p = q)); auto.
Qed.

(** Updating the destination does not change which entries are absorbed:
    the destination keeps its id, and is skipped before and after. *)
Lemma absorbed_insert (h : gmap positive Interface) (this : positive)
    (me me' : Interface) (ps : list positive) :
  h !! this = Some me -> id me' = id me ->
  absorbed (<[this := me']> h) me' ps = absorbed h me ps.
Proof.
  intros Hme Hid. unfold absorbed. rewrite Hid.
  induction ps as [|p ps IH]; [done|].
  destruct (decide (this = p)) as [<-|Hne].
  - rewrite (pointees_cons _ _ _ me') by apply lookup_insert_eq.
    rewrite (pointees_cons _ _ _ me) by done.
    rewrite !filter_cons_False by (intros Hn; by apply Hn). exact IH.
  - unfold pointees in *. cbn [omap list_omap].
    rewrite lookup_insert_ne by done.
    destruct (h !! p) as [o|]; [|exact IH].
    rewrite !filter_cons. rewrite IH. done.
Qed.

(** The whole loop: the destination absorbs, in order, every entry of the
    list that does not carry its id, and the ids of these are erased. *)
Lemma merge_loop_spec (this : positive) (its : list positive) (w : World) (me : Interface) :
  heap w !! this = Some me -> all_allocated (heap w) its ->
  for_each (merge_one this) its w =
    Some (tt, mkWorld (<[this := merged me (absorbed (heap w) me its)]> (heap w))
                      (erase_all (interfacialSegments w) (absorbed (heap w) me its))).
Proof.
  revert w me. induction its as [|it its IH]; intros w me Hme Hall; cbn [for_each].
  - unfold absorbed, pointees, merged, erase_all. cbn.
    rewrite (insert_id _ _ _ Hme). by rewrite World_eta.
  - apply Forall_cons in Hall as [[other Hit] Hall].
    destruct (decide (id other = id me)) as [Hid|Hid].
    + rewrite (bind_Some _ _ _ _ _ (merge_one_skip _ _ _ _ _ Hme Hit Hid)).
      rewrite (IH w me Hme Hall). unfold absorbed.
      rewrite (pointees_cons _ _ _ _ Hit).
      by rewrite filter_cons_False by (intros Hn; by apply Hn).
    + rewrite (bind_Some _ _ _ _ _ (merge_one_absorb _ _ _ _ _ Hme Hit Hid)).
      erewrite IH; cbn [heap interfacialSegments].
      2:{ apply lookup_insert_eq. }
      2:{ by apply all_allocated_insert. }
      rewrite (absorbed_insert _ _ me) by done.
      rewrite insert_insert_eq.
      unfold absorbed at 3 4. rewrite (pointees_cons _ _ _ _ Hit).
      rewrite filter_cons_True by done. done.
Qed.

(** What the destination has become. *)
Lemma merged_id (me : Interface) (os : list Interface) : id (merged me os) = id me.
Proof.
  unfold merged. revert me.
  induction os as [|o os IH]; intros me; cbn [foldl]; [done|]. by rewrite IH.
Qed.

Lemma merged_segment (me : Interface) (os : list Interface) :
  segment (merged me os) = segment me ∪ ⋃ (segment <$> os).
Proof.
  unfold merged. revert me.
  induction os as [|o os IH]; intros me; cbn [foldl fmap list_fmap].
  - cbn. by rewrite (right_id_L ∅ (∪)).
  - rewrite IH, union_list_cons. cbn [absorb_into segment].
    by rewrite (assoc_L (∪)).
Qed.

Lemma merged_bbox (me : Interface) (os : list Interface) :
  bbox (merged me os) = bbox_hull (bbox me) (bbox <$> os).
Proof.
  rewrite <- foldl_mergeBbox_hull. unfold merged. revert me.
  induction os as [|o os IH]; intros me; cbn [foldl fmap list_fmap]; [done|].
  by rewrite IH.
Qed.

Lemma merged_bbox_grows (me : Interface) (os : list Interface) :
  bbox_grows (bbox me) (bbox (merged me os)).
Proof.
  unfold merged. revert me.
  induction os as [|o os IH]; intros me; cbn [foldl].
  - apply bbox_grows_refl.
  - eapply bbox_grows_trans; [|apply IH]. apply mergeBbox_grows.
Qed.

(** What the registry has become. *)
Lemma erase_all_lookup (r : gmap Z positive) (os : list Interface) (k : Z) :
  erase_all r os !! k = if decide (k ∈ id <$> os) then None else r !! k.
Proof.
  unfold erase_all. revert r.
  induction os as [|o os IH]; intros r; cbn [foldl fmap list_fmap].
  - rewrite decide_False; [done|]. apply not_elem_of_nil.
  - rewrite IH. destruct (decide (k ∈ id <$> os)) as [Hin|Hout].
    + rewrite decide_True; [done|]. by apply list_elem_of_further.
    + destruct (decide (k = id o)) as [->|Hne].
      * rewrite decide_True by apply list_elem_of_here. apply lookup_delete_eq.
      * rewrite decide_False.
        -- by apply lookup_delete_ne.
        -- intros [?|?]%elem_of_cons; done.
Qed.

Lemma pointees_resolved (h : gmap positive Interface) (ps : list positive)
    (os : list Interface) :
  Forall2 (fun p o => h !! p = Some o) ps os -> pointees h ps = os.
Proof.
  induction 1 as [|p o ps os Hp _ IH]; [done|].
  by rewrite (pointees_cons _ _ _ _ Hp), IH.
Qed.

Lemma resolved_allocated (h : gmap positive Interface) (ps : list positive)
    (os : list Interface) :
  Forall2 (fun p o => h !! p = Some o) ps os -> all_allocated h ps.
Proof.
  unfold all_allocated. induction 1 as [|p o ps os Hp _ IH]; constructor; eauto.
Qed.

Lemma absorbed_all (h : gmap positive Interface) (me : Interface)
    (ps : list positive) (os : list Interface) :
  Forall2 (fun p o => h !! p = Some o) ps os ->
  Forall (fun o => id o ≠ id me) os ->
  absorbed h me ps = os.
Proof.
  intros Hres Hids. unfold absorbed. rewrite (pointees_resolved _ _ _ Hres).
  clear Hres. induction Hids as [|o os Ho _ IH]; [done|].
  rewrite filter_cons_True by done. by rewrite IH.
Qed.

Lemma absorbed_none (h : gmap positive Interface) (me : Interface) (ps : list positive) :
  Forall (fun p => exists o, h !! p = Some o /\ id o = id me) ps ->
  absorbed h me ps = [].
Proof.
  unfold absorbed. induction 1 as [|p ps (o & Hp & Hid) _ IH]; [done|].
  rewrite (pointees_cons _ _ _ _ Hp).
  by rewrite filter_cons_False by (intros Hn; by apply Hn).
Qed.

Lemma absorbed_elem (h : gmap positive Interface) (me : Interface)
    (ps : list positive) (p : positive) (o : Interface) :
  p ∈ ps -> h !! p = Some o -> id o ≠ id me -> o ∈ absorbed h me ps.
Proof.
  intros Hin Hp Hid. unfold absorbed, pointees.
  apply list_elem_of_filter. split; [done|].
  apply list_elem_of_omap. eauto.
Qed.

(** One entry carrying the id of the destination, wherever it stands in
    the list, does not change which entries are absorbed. *)
Lemma absorbed_skip (h : gmap positive Interface) (me other : Interface)
    (before after : list positive) (it : positive) :
  h !! it = Some other -> id other = id me ->
  absorbed h me (before ++ it :: after) = absorbed h me (before ++ after).
Proof.
  intros Hit Hid. unfold absorbed, pointees.
  rewrite !omap_app, !filter_app. f_equal.
  cbn [omap list_omap]. rewrite Hit.
  by rewrite filter_cons_False by (intros Hn; by apply Hn).
Qed.

(** The call as a whole. *)
Lemma mergeSegments_run (this : positive) (its : list positive) (w : World) (me : Interface) :
  heap w !! this = Some me -> all_allocated (heap w) its ->
  mergeSegments this its w =
    Some (bool_decide (its ≠ []),
          mkWorld (<[this := merged me (absorbed (heap w) me its)]> (heap w))
                  (erase_all (interfacialSegments w) (absorbed (heap w) me its))).
Proof.
  intros Hme Hall. destruct its as [|it its].
  - unfold mergeSegments, ret, absorbed, pointees, merged, erase_all. cbn.
    rewrite (insert_id _ _ _ Hme). by rewrite World_eta.
  - unfold mergeSegments.
    by rewrite (bind_Some _ _ _ _ _ (merge_loop_spec this _ w me Hme Hall)).
Qed.

(* ===================================================================== *)
(** ** [mergeSegments]: the properties *)
(* ===================================================================== *)

Lemma two_segments_A : heap two_segments !! 1%positive = Some segment_A.
Proof. unfold two_segments. cbn [heap]. apply lookup_insert_eq. Qed.

Lemma two_segments_B : heap two_segments !! 2%positive = Some segment_B.
Proof.
  unfold two_segments. cbn [heap].
  rewrite lookup_insert_ne by done. apply lookup_insert_eq.
Qed.

(** C2, as amended. For a non-empty list of segments whose ids differ from
    the id of [A], the call returns true; afterwards the points of [A] are
    its prior points united with the point sets of all listed segments, its
    box is the componentwise min/max combination of its prior box with all
    their boxes, its id is its own, no id of an absorbed segment is left in
    the registry, and the registry's entry for the id of [A] is as before. *)
Theorem mergeSegments_absorbs (w : World) (this : positive) (A : Interface)
    (its : list positive) (others : list Interface)
    (HA : heap w !! this = Some A)
    (Hres : Forall2 (fun p o => heap w !! p = Some o) its others)
    (Hids : Forall (fun o => id o ≠ id A) others)
    (Hne : its ≠ []) :
  exists A' w',
    mergeSegments this its w = Some (true, w') /\
    heap w' !! this = Some A' /\
    id A' = id A /\
    segment A' = segment A ∪ ⋃ (segment <$> others) /\
    bbox A' = bbox_hull (bbox A) (bbox <$> others) /\
    (forall o, o ∈ others -> interfacialSegments w' !! id o = None) /\
    interfacialSegments w' !! id A = interfacialSegments w !! id A.
Proof.
  eexists (merged A others), _. split.
  { rewrite (mergeSegments_run this its w A HA (resolved_allocated _ _ _ Hres)).
    rewrite (absorbed_all _ _ _ _ Hres Hids).
    by rewrite bool_decide_eq_true_2. }
  cbn [heap interfacialSegments].
  split; [apply lookup_insert_eq|].
  split; [apply merged_id|].
  split; [apply merged_segment|].
  split; [apply merged_bbox|].
  split.
  - intros o Ho. rewrite erase_all_lookup, decide_True; [done|].
    apply list_elem_of_fmap. eauto.
  - rewrite erase_all_lookup, decide_False; [done|].
    intros (o & Heq & Ho)%list_elem_of_fmap.
    rewrite Forall_forall in Hids. by apply (Hids o Ho).
Qed.

Lemma mergeSegments_absorbs_witness :
  exists A' w',
    mergeSegments 1%positive [2%positive] two_segments = Some (true, w') /\
    heap w' !! 1%positive = Some A' /\
    segment A' = segment segment_A ∪ ⋃ [segment segment_B] /\
    interfacialSegments w' !! 2 = None.
Proof.
  assert (Hres : Forall2 (fun p o => heap two_segments !! p = Some o)
                         [2%positive] [segment_B]).
  { constructor; [apply two_segments_B|constructor]. }
  assert (Hids : Forall (fun o => id o ≠ id segment_A) [segment_B]).
  { constructor; [cbn; lia|constructor]. }
  destruct (mergeSegments_absorbs two_segments 1%positive segment_A
              [2%positive] [segment_B] two_segments_A Hres Hids ltac:(done))
    as (A' & w' & Hrun & HA' & _ & Hseg & _ & Hreg & _).
  exists A', w'.
  split; [exact Hrun|]. split; [exact HA'|]. split; [exact Hseg|].
  apply (Hreg segment_B). apply list_elem_of_here.
Defined.

(** The claim C2 as stated also covers the empty list, on which the call
    returns false. *)
Lemma mergeSegments_nothing_listed :
  heap two_segments !! 1%positive = Some segment_A /\
  Forall2 (fun p o => heap two_segments !! p = Some o) [] [] /\
  Forall (fun o => id o ≠ id segment_A) [] /\
  mergeSegments 1%positive [] two_segments = Some (false, two_segments) /\
  ~ exists w', mergeSegments 1%positive [] two_segments = Some (true, w').
Proof.
  split; [apply two_segments_A|].
  split; [constructor|]. split; [constructor|].
  split; [reflexivity|].
  intros (w' & Hrun). discriminate Hrun.
Qed.

(** C6. On an empty list [mergeSegments] returns false, and the points
    and the box of the segment it is called on, every other object and the
    registry are as before. *)
Theorem mergeSegments_empty (w : World) (this : positive) :
  exists w',
    mergeSegments this [] w = Some (false, w') /\
    segment <$> heap w' !! this = segment <$> heap w !! this /\
    bbox <$> heap w' !! this = bbox <$> heap w !! this /\
    heap w' = heap w /\
    interfacialSegments w' = interfacialSegments w.
Proof.
  exists w. split.
  - unfold mergeSegments, ret. reflexivity.
  - repeat split; reflexivity.
Qed.

(** C7. An entry that carries the id of the destination is skipped: the
    iteration on it changes nothing; [mergeSegments([this])] returns true
    and changes nothing; so does a non-empty list of such entries; and a
    call on a list with such an entry ends in the state the loop reaches on
    the list without it. *)
Theorem mergeSegments_skips_self (w : World) (this it : positive) (me other : Interface)
    (selfs before after : list positive)
    (Hme : heap w !! this = Some me)
    (Hit : heap w !! it = Some other) (Hid : id other = id me)
    (Hselfs : Forall (fun p => exists o, heap w !! p = Some o /\ id o = id me) selfs)
    (Hb : all_allocated (heap w) before) (Ha : all_allocated (heap w) after) :
  merge_one this it w = Some (tt, w) /\
  mergeSegments this [this] w = Some (true, w) /\
  (selfs ≠ [] -> mergeSegments this selfs w = Some (true, w)) /\
  exists w',
    for_each (merge_one this) (before ++ after) w = Some (tt, w') /\
    mergeSegments this (before ++ it :: after) w = Some (true, w').
Proof.
  assert (Hnone : forall ps,
             ps ≠ [] ->
             Forall (fun p => exists o, heap w !! p = Some o /\ id o = id me) ps ->
             mergeSegments this ps w = Some (true, w)).
  { intros ps Hps Hall.
    rewrite (mergeSegments_run this ps w me Hme).
    - rewrite (absorbed_none _ _ _ Hall). unfold merged, erase_all. cbn [foldl].
      rewrite (insert_id _ _ _ Hme), World_eta. by rewrite bool_decide_eq_true_2.
    - unfold all_allocated. eapply Forall_impl; [exact Hall|].
      intros p (o & Hp & _). eauto. }
  split; [by apply (merge_one_skip this it w me other)|].
  split; [apply Hnone; [done|]; repeat constructor; eauto|].
  split; [intros Hne; by apply Hnone|].
  eexists. split.
  - apply (merge_loop_spec this _ w me Hme). by apply Forall_app.
  - rewrite (mergeSegments_run this _ w me Hme).
    + rewrite (absorbed_skip _ _ _ _ _ _ Hit Hid).
      rewrite bool_decide_eq_true_2; [done|]. by destruct before.
    + apply Forall_app. split; [done|]. constructor; eauto.
Qed.

Lemma mergeSegments_skips_self_witness :
  mergeSegments 1%positive [1%positive] two_segments = Some (true, two_segments) /\
  mergeSegments 1%positive [1%positive; 1%positive] two_segments
    = Some (true, two_segments) /\
  exists w',
    for_each (merge_one 1%positive) [2%positive] two_segments = Some (tt, w') /\
    mergeSegments 1%positive [2%positive; 1%positive] two_segments = Some (true, w').
Proof.
  assert (Hselfs : Forall (fun p => exists o, heap two_segments !! p = Some o /\
                                              id o = id segment_A)
                          [1%positive; 1%positive]).
  { assert (Hself : exists o, heap two_segments !! 1%positive = Some o /\
                               id o = id segment_A)
      by (exists segment_A; split; [apply two_segments_A|reflexivity]).
    constructor; [exact Hself|]. constructor; [exact Hself|constructor]. }
  assert (Hb : all_allocated (heap two_segments) [2%positive]).
  { constructor; [exists segment_B; apply two_segments_B|constructor]. }
  assert (Ha : all_allocated (heap two_segments) []) by constructor.
  destruct (mergeSegments_skips_self two_segments 1%positive 1%positive
              segment_A segment_A [1%positive; 1%positive] [2%positive] []
              two_segments_A two_segments_A eq_refl Hselfs Hb Ha)
    as (_ & Hone & Hmany & Hskip).
  split; [exact Hone|]. split; [by apply Hmany|]. exact Hskip.
Defined.

(** C9. Every operation only grows the segment: [addPoint] and
    [mergeSegments] keep the id, keep every point that was in the set,
    raise no min component and lower no max component of the box, as does
    [mergeBbox] on the box alone; and [mergeSegments] changes the id of no
    object. *)
Theorem operations_only_grow (w : World) (this : positive) (me : Interface)
    (p : Point3D) (its : list positive)
    (Hme : heap w !! this = Some me) (Hits : all_allocated (heap w) its) :
  (id (addPoint p me) = id me /\
   segment me ⊆ segment (addPoint p me) /\
   bbox_grows (bbox me) (bbox (addPoint p me))) /\
  (forall otherBbox, bbox_grows (bbox me) (mergeBbox otherBbox (bbox me))) /\
  exists r w' me',
    mergeSegments this its w = Some (r, w') /\
    heap w' !! this = Some me' /\
    id me' = id me /\
    segment me ⊆ segment me' /\
    bbox_grows (bbox me) (bbox me') /\
    (forall q o, heap w !! q = Some o ->
       exists o', heap w' !! q = Some o' /\ id o' = id o).
Proof.
  split; [|split].
  - split; [apply addPoint_id|]. split.
    + rewrite addPoint_segment. apply union_subseteq_l.
    + rewrite addPoint_bbox. apply mergeBbox_grows.
  - intros otherBbox. apply mergeBbox_grows.
  - eexists _, _, (merged me (absorbed (heap w) me its)).
    split; [apply (mergeSegments_run this its w me Hme Hits)|].
    cbn [heap].
    split; [apply lookup_insert_eq|].
    split; [apply merged_id|].
    split; [rewrite merged_segment; apply union_subseteq_l|].
    split; [apply merged_bbox_grows|].
    intros q o Hq. destruct (decide (this = q)) as [<-|Hne].
    + eexists. split; [apply lookup_insert_eq|].
      rewrite merged_id. congruence.
    + exists o. by rewrite lookup_insert_ne.
Qed.

Lemma operations_only_grow_witness :
  segment segment_A ⊆ segment (addPoint (mkPoint3D 3 4 5) segment_A) /\
  exists r w' me',
    mergeSegments 1%positive [2%positive] two_segments = Some (r, w') /\
    heap w' !! 1%positive = Some me' /\
    segment segment_A ⊆ segment me' /\
    bbox_grows (bbox segment_A) (bbox me').
Proof.
  assert (Hits : all_allocated (heap two_segments) [2%positive]).
  { constructor; [exists segment_B; apply two_segments_B|constructor]. }
  destruct (operations_only_grow two_segments 1%positive segment_A
              (mkPoint3D 3 4 5) [2%positive] two_segments_A Hits)
    as ((_ & Hadd & _) & _ & (r & w' & me' & Hrun & Hme' & _ & Hseg & Hbox & _)).
  split; [exact Hadd|]. exists r, w', me'.
  split; [exact Hrun|]. split; [exact Hme'|]. split; [exact Hseg|exact Hbox].
Defined.

(** C10, as amended. A call of [mergeSegments] changes no object other
    than the one it is called on: every listed segment other than the
    destination keeps its point set and its box.  For an absorbed segment
    the registry loses the entry of its id, and the registry changes at no
    other id. *)
Theorem mergeSegments_sources_unchanged (w : World) (this : positive) (me : Interface)
    (its : list positive)
    (Hme : heap w !! this = Some me) (Hits : all_allocated (heap w) its) :
  exists r w',
    mergeSegments this its w = Some (r, w') /\
    (forall s, s ≠ this -> heap w' !! s = heap w !! s) /\
    (forall s o, s ∈ its -> heap w !! s = Some o -> id o ≠ id me ->
       heap w' !! s = Some o /\ interfacialSegments w' !! id o = None) /\
    (forall k, k ∉ id <$> absorbed (heap w) me its ->
       interfacialSegments w' !! k = interfacialSegments w !! k).
Proof.
  eexists _, _.
  split; [apply (mergeSegments_run this its w me Hme Hits)|].
  cbn [heap interfacialSegments].
  split; [|split].
  - intros s Hs. by rewrite lookup_insert_ne.
  - intros s o Hin Hs Hid. split.
    + rewrite lookup_insert_ne; [done|]. intros <-. congruence.
    + rewrite erase_all_lookup, decide_True; [done|].
      apply list_elem_of_fmap. exists o. split; [done|].
      by apply (absorbed_elem _ _ _ s).
  - intros k Hk. by rewrite erase_all_lookup, decide_False.
Qed.

Lemma mergeSegments_sources_unchanged_witness :
  exists r w',
    mergeSegments 1%positive [2%positive; 1%positive] two_segments = Some (r, w') /\
    heap w' !! 2%positive = Some segment_B /\
    interfacialSegments w' !! 2 = None.
Proof.
  assert (Hits : all_allocated (heap two_segments) [2%positive; 1%positive]).
  { constructor; [exists segment_B; apply two_segments_B|].
    constructor; [exists segment_A; apply two_segments_A|constructor]. }
  destruct (mergeSegments_sources_unchanged two_segments 1%positive segment_A
              [2%positive; 1%positive] two_segments_A Hits)
    as (r & w' & Hrun & _ & Habs & _).
  exists r, w'. split; [exact Hrun|].
  apply (Habs 2%positive segment_B).
  - apply list_elem_of_here.
  - apply two_segments_B.
  - cbn. lia.
Defined.

(** The claim C10 as stated covers every listed segment; the destination
    itself may be listed, and it grows when another entry is absorbed. *)
Lemma listed_destination_grows :
  exists w' A',
    mergeSegments 1%positive [2%positive; 1%positive] two_segments = Some (true, w') /\
    1%positive ∈ [2%positive; 1%positive] /\
    heap two_segments !! 1%positive = Some segment_A /\
    heap w' !! 1%positive = Some A' /\
    contains segment_A (mkPoint3D 10 10 10) = false /\
    contains A' (mkPoint3D 10 10 10) = true /\
    bbox segment_A <> bbox A'.
Proof.
  assert (Hits : all_allocated (heap two_segments) [2%positive; 1%positive]).
  { constructor; [exists segment_B; apply two_segments_B|].
    constructor; [exists segment_A; apply two_segments_A|constructor]. }
  eexists _, _.
  split; [apply (mergeSegments_run 1%positive _ two_segments segment_A
                   two_segments_A Hits)|].
  split; [apply list_elem_of_further, list_elem_of_here|].
  split; [apply two_segments_A|].
  split; [cbn [heap]; apply lookup_insert_eq|].
  split; [by vm_compute|].
  split; [by vm_compute|].
  by vm_compute.
Qed.


(* ===================================================================== *)
(** ** The two scenarios, run *)
(* ===================================================================== *)

(** A segment with id 1 after [addPoint((5,5,5))]. *)
Example scenario_single_point :
  let s := addPoint (mkPoint3D 5 5 5) (Interface_new 1) in
  bbox s = mkBBox 4 4 4 6 6 6 /\
  contains s (mkPoint3D 5 5 5) = true /\
  contains s (mkPoint3D 6 5 5) = true /\
  contains s (mkPoint3D 5 6 5) = true /\
  contains s (mkPoint3D 5 5 6) = true /\
  contains s (mkPoint3D 6 6 5) = true /\
  contains s (mkPoint3D 6 6 6) = false /\
  size (segment s) = 19%nat.
Proof. cbv zeta. repeat split; by vm_compute. Qed.

(** [A.mergeSegments([B], registry)] on the registry [{1: A, 2: B}]: the
    registry becomes [{1: A}], [A] holds the points of both, and its box is
    [(9,9,9,11,11,11)], the min components [UINT32_MAX] that
    [addPoint((0,0,0))] left in [A] giving way to those of [B]. *)
Example scenario_two_segments :
  exists w' A',
    mergeSegments 1%positive [2%positive] two_segments = Some (true, w') /\
    heap w' !! 1%positive = Some A' /\
    interfacialSegments w' = <[1 := 1%positive]> ∅ /\
    contains A' (mkPoint3D 10 10 10) = true /\
    contains A' (mkPoint3D 0 0 0) = true /\
    bbox segment_A = mkBBox UINT32_MAX UINT32_MAX UINT32_MAX 1 1 1 /\
    bbox A' = mkBBox 9 9 9 11 11 11.
Proof.
  assert (Hits : all_allocated (heap two_segments) [2%positive]).
  { constructor; [exists segment_B; apply two_segments_B|constructor]. }
  eexists _, _.
  split; [apply (mergeSegments_run 1%positive _ two_segments segment_A
                   two_segments_A Hits)|].
  split; [cbn [heap]; apply lookup_insert_eq|].
  split.
  { cbn [interfacialSegments]. apply map_eq. intros k.
    rewrite erase_all_lookup. unfold two_segments. cbn [interfacialSegments].
    destruct (decide (k = 2)) as [->|Hk].
    - by vm_compute.
    - rewrite decide_False.
      + destruct (decide (k = 1)) as [->|Hk1]; [by rewrite !lookup_insert_eq|].
        by rewrite !lookup_insert_ne.
      + vm_compute. intros [?|H]%elem_of_cons; [done|]. by apply elem_of_nil in H. }
  repeat split; by vm_compute.
Qed.


(* ===================================================================== *)
(** ** Further properties of [addPoint] *)
(* ===================================================================== *)

Lemma Interface_eq (a b : Interface) :
  id a = id b -> segment a = segment b -> bbox a = bbox b -> a = b.
Proof. destruct a, b; cbn; congruence. Qed.

Lemma mergeBbox_absorb (a b : BBox) : mergeBbox a (mergeBbox a b) = mergeBbox a b.
Proof. rewrite !mergeBbox_components. apply BBox_eq; cbn; lia. Qed.

Lemma mergeBbox_swap (a b c : BBox) :
  mergeBbox a (mergeBbox b c) = mergeBbox b (mergeBbox a c).
Proof. rewrite !mergeBbox_components. apply BBox_eq; cbn; lia. Qed.

(** Adding the same point again changes nothing. *)
Theorem addPoint_idempotent (this : Interface) (p : Point3D) :
  addPoint p (addPoint p this) = addPoint p this.
Proof.
  apply Interface_eq.
  - reflexivity.
  - rewrite !addPoint_segment.
    by rewrite <- (assoc_L (∪)), (idemp_L (∪)).
  - rewrite !addPoint_bbox. apply mergeBbox_absorb.
Qed.

Lemma addPoint_comm (this : Interface) (p q : Point3D) :
  addPoint p (addPoint q this) = addPoint q (addPoint p this).
Proof.
  apply Interface_eq.
  - reflexivity.
  - rewrite !addPoint_segment.
    rewrite <- !(assoc_L (∪)). f_equal. apply (comm_L (∪)).
  - rewrite !addPoint_bbox. apply mergeBbox_swap.
Qed.

(** The object a run of [addPoint] calls leaves does not depend on the
    order of the calls. *)
Theorem addPoints_permutation (ps qs : list Point3D) (this : Interface)
    (Hperm : ps ≡ₚ qs) :
  addPoints ps this = addPoints qs this.
Proof.
  unfold addPoints. revert this.
  induction Hperm as [|p ps qs _ IH|p q ps|ps qs rs _ IH1 _ IH2]; intros this.
  - reflexivity.
  - cbn [foldl]. apply IH.
  - cbn [foldl]. by rewrite addPoint_comm.
  - by rewrite IH1.
Qed.

Lemma addPoints_permutation_witness :
  addPoints [mkPoint3D 5 5 5; mkPoint3D 2 9 7] (Interface_new 1)
    = addPoints [mkPoint3D 2 9 7; mkPoint3D 5 5 5] (Interface_new 1).
Proof.
  apply (addPoints_permutation [mkPoint3D 5 5 5; mkPoint3D 2 9 7]
           [mkPoint3D 2 9 7; mkPoint3D 5 5 5]).
  apply perm_swap.
Defined.

(** One call inserts at most nineteen points, leaves at least nineteen
    in the set, and on a set that was empty leaves exactly nineteen. *)
Theorem addPoint_size (this : Interface) (p : Point3D) :
  (size (segment (addPoint p this)) <= size (segment this) + 19)%nat /\
  (19 <= size (segment (addPoint p this)))%nat /\
  (segment this = ∅ -> size (segment (addPoint p this)) = 19%nat).
Proof.
  assert (Hsz : size (list_to_set (C := gset Point3D) (offset p <$> dilation_offsets))
                = 19%nat).
  { rewrite size_list_to_set by apply dilated_points_NoDup.
    by rewrite length_fmap. }
  rewrite addPoint_segment. split; [|split].
  - rewrite size_union_alt, <- Hsz.
    apply Nat.add_le_mono_l, subseteq_size, subseteq_difference_l. done.
  - rewrite <- Hsz. apply subseteq_size, union_subseteq_r.
  - intros ->. by rewrite (left_id_L ∅ (∪)).
Qed.

Lemma addPoint_size_witness :
  size (segment (addPoint (mkPoint3D 7 7 7) (Interface_new 3))) = 19%nat.
Proof.
  destruct (addPoint_size (Interface_new 3) (mkPoint3D 7 7 7)) as (_ & _ & Hfresh).
  apply Hfresh. reflexivity.
Defined.

(* ===================================================================== *)
(** ** The box and the conversion to [uint32_t] *)
(* ===================================================================== *)

Lemma to_u32_near (n : Z) :
  - modulus <= n < modulus ->
  to_u32 n = if n <? 0 then n + modulus else n.
Proof.
  unfold to_u32, modulus. intros Hn. destruct (Z.ltb_spec n 0).
  - symmetry. apply (Z.mod_unique n 4294967296 (-1)); lia.
  - apply Z.mod_small. lia.
Qed.

(** The converted [c - 1], [c] and [c + 1] are in this order exactly when
    [c] is neither [0] nor [-1]. *)
Lemma coordinate_window (c : Z) :
  is_int c ->
  (to_u32 (int_sub c 1) < to_u32 c < to_u32 (int_add c 1) <-> c <> 0 /\ c <> -1).
Proof.
  unfold is_int, INT_MIN, INT_MAX, int_sub, int_add. intros Hc.
  rewrite !to_u32_to_int.
  rewrite !to_u32_near by (unfold modulus; lia). unfold modulus.
  destruct (Z.ltb_spec (c - 1) 0), (Z.ltb_spec c 0), (Z.ltb_spec (c + 1) 0); lia.
Qed.

(** A coordinate [0] pushes the min component to [UINT32_MAX], a
    coordinate [-1] leaves the max component at [0]. *)
Lemma coordinate_degenerate (c : Z) :
  c = 0 \/ c = -1 ->
  to_u32 (int_sub c 1) = UINT32_MAX \/ to_u32 (int_add c 1) = 0.
Proof. intros [->| ->]; [left|right]; reflexivity. Qed.

Lemma offset_coordinate_in_window (c o : Z) :
  is_int c -> c <> 0 /\ c <> -1 -> -1 <= o <= 1 ->
  to_u32 (int_sub c 1) <= to_u32 (int_add c o) <= to_u32 (int_add c 1).
Proof.
  intros Hc Hz Ho. pose proof (proj2 (coordinate_window c Hc) Hz) as Hw.
  assert (Hcases : o = -1 \/ o = 0 \/ o = 1) by lia.
  destruct Hcases as [->|[->| ->]].
  - change (int_add c (-1)) with (int_sub c 1). lia.
  - rewrite (int_add_0_r c Hc). lia.
  - lia.
Qed.

Lemma in_closed_box_grows (b b' : BBox) (q : Point3D) :
  bbox_grows b b' -> in_closed_box b q -> in_closed_box b' q.
Proof. unfold bbox_grows, in_closed_box. lia. Qed.

Lemma mergeBbox_grows_other (o b : BBox) : bbox_grows o (mergeBbox o b).
Proof. rewrite mergeBbox_components. unfold bbox_grows; cbn. lia. Qed.

Lemma dilated_in_point_box (p : Point3D) (o : Z * Z * Z) :
  is_int_point p -> is_off_zero p -> is_unit_offset o ->
  in_closed_box (point_box p) (offset p o).
Proof.
  destruct o as [[o1 o2] o3].
  unfold is_int_point, is_off_zero, is_unit_offset, in_closed_box, point_box, offset.
  cbn [fst snd x y z minX minY minZ maxX maxY maxZ].
  intros (Hx & Hy & Hz) (Zx & Zy & Zz) (Ox & Oy & Oz).
  split; [|split]; by apply offset_coordinate_in_window.
Qed.

Lemma addPoints_bbox_grows (ps : list Point3D) (this : Interface) :
  bbox_grows (bbox this) (bbox (addPoints ps this)).
Proof.
  unfold addPoints. revert this.
  induction ps as [|p ps IH]; intros this; cbn [foldl].
  - apply bbox_grows_refl.
  - eapply bbox_grows_trans; [|apply IH].
    rewrite addPoint_bbox. apply mergeBbox_grows.
Qed.

Lemma addPoint_within_own (this : Interface) (p : Point3D) :
  is_int_point p -> is_off_zero p -> withinBbox (addPoint p this) p = true.
Proof.
  intros (Hx & Hy & Hz) (Zx & Zy & Zz).
  rewrite withinBbox_true, addPoint_bbox, mergeBbox_components.
  unfold point_box. cbn [minX minY minZ maxX maxY maxZ].
  pose proof (proj2 (coordinate_window _ Hx) Zx).
  pose proof (proj2 (coordinate_window _ Hy) Zy).
  pose proof (proj2 (coordinate_window _ Hz) Zz). lia.
Qed.

(** On a fresh segment [withinBbox] accepts the point just added exactly
    when none of its coordinates is [0] or [-1]; when one is, the box
    accepts no point at all. *)
Theorem fresh_point_within_iff (i : Z) (p : Point3D) (Hp : is_int_point p) :
  (withinBbox (addPoint p (Interface_new i)) p = true <-> is_off_zero p) /\
  (~ is_off_zero p -> forall q, withinBbox (addPoint p (Interface_new i)) q = false).
Proof.
  destruct Hp as (Hx & Hy & Hz).
  pose proof (coordinate_window _ Hx) as Wx.
  pose proof (coordinate_window _ Hy) as Wy.
  pose proof (coordinate_window _ Hz) as Wz.
  split.
  - rewrite withinBbox_true, addPoint_fresh_bbox. unfold is_off_zero, point_box.
    cbn [minX minY minZ maxX maxY maxZ]. tauto.
  - intros Hnot q. apply not_true_is_false. rewrite withinBbox_true, addPoint_fresh_bbox.
    unfold point_box. cbn [minX minY minZ maxX maxY maxZ].
    intros (Qx & Qy & Qz). apply Hnot. unfold is_off_zero.
    pose proof (to_u32_is_u32 (x q)) as Ux. pose proof (to_u32_is_u32 (y q)) as Uy.
    pose proof (to_u32_is_u32 (z q)) as Uz. unfold is_u32 in Ux, Uy, Uz.
    assert (Hgood : forall c, (exists v, 0 <= v <= UINT32_MAX /\
                       to_u32 (int_sub c 1) < v < to_u32 (int_add c 1)) ->
                     c <> 0 /\ c <> -1).
    { intros c (v & Hv & Hw). split; intros ->.
      - destruct (coordinate_degenerate 0 (or_introl eq_refl)) as [E|E];
          [rewrite E in Hw; lia|]. vm_compute in E. discriminate E.
      - destruct (coordinate_degenerate (-1) (or_intror eq_refl)) as [E|E];
          [|rewrite E in Hw; lia]. vm_compute in E. discriminate E. }
    split; [|split]; apply Hgood; eauto.
Qed.

Lemma fresh_point_within_iff_witness :
  withinBbox (addPoint (mkPoint3D (-7) 3 (-2)) (Interface_new 1))
             (mkPoint3D (-7) 3 (-2)) = true /\
  withinBbox (addPoint (mkPoint3D 0 3 4) (Interface_new 1)) (mkPoint3D 0 3 4) = false.
Proof.
  split.
  - assert (Hp : is_int_point (mkPoint3D (-7) 3 (-2))).
    { unfold is_int_point, is_int, INT_MIN, INT_MAX; cbn. lia. }
    apply (fresh_point_within_iff 1 _ Hp). unfold is_off_zero; cbn. lia.
  - assert (Hp : is_int_point (mkPoint3D 0 3 4)).
    { unfold is_int_point, is_int, INT_MIN, INT_MAX; cbn. lia. }
    apply (fresh_point_within_iff 1 _ Hp). unfold is_off_zero; cbn. lia.
Defined.

(** A directly added point none of whose coordinates is [0] or [-1] is
    accepted by [withinBbox] from the call that adds it on, whatever was
    added before and whatever is added after. *)
Theorem direct_point_stays_within (this : Interface) (before after : list Point3D)
    (p : Point3D) (Hp : is_int_point p) (Hz : is_off_zero p) :
  withinBbox (addPoints (before ++ p :: after) this) p = true.
Proof.
  unfold addPoints. rewrite foldl_app. cbn [foldl].
  set (s1 := foldl (fun s q => addPoint q s) this before).
  apply (withinBbox_grows (addPoint p s1)).
  - apply (addPoints_bbox_grows after (addPoint p s1)).
  - by apply addPoint_within_own.
Qed.

Lemma direct_point_stays_within_witness :
  withinBbox (addPoints ([mkPoint3D 9 9 9] ++ mkPoint3D 5 5 5 :: [mkPoint3D 1 1 1])
                        (Interface_new 1))
             (mkPoint3D 5 5 5) = true.
Proof.
  apply direct_point_stays_within.
  - unfold is_int_point, is_int, INT_MIN, INT_MAX; cbn. lia.
  - unfold is_off_zero; cbn. lia.
Defined.

(* ===================================================================== *)
(** ** Invariants of the box *)
(* ===================================================================== *)

Lemma addPoint_keeps_closed_box (this : Interface) (p : Point3D) :
  is_int_point p -> is_off_zero p ->
  points_in_closed_box this -> points_in_closed_box (addPoint p this).
Proof.
  intros Hp Hz Hinv q. rewrite addPoint_segment, addPoint_bbox.
  intros [Hq|Hq]%elem_of_union.
  - apply (in_closed_box_grows (bbox this)); [apply mergeBbox_grows|by apply Hinv].
  - apply elem_of_list_to_set, list_elem_of_fmap in Hq as (o & -> & Ho).
    apply (in_closed_box_grows (point_box p)); [apply mergeBbox_grows_other|].
    apply dilated_in_point_box; [done..|].
    pose proof dilation_offsets_unit as Hu. rewrite Forall_forall in Hu. by apply Hu.
Qed.

Lemma absorb_into_keeps_closed_box (me other : Interface) :
  points_in_closed_box me -> points_in_closed_box other ->
  points_in_closed_box (absorb_into me other).
Proof.
  intros Hme Hother q. unfold absorb_into. cbn [segment bbox].
  intros [Hq|Hq]%elem_of_union.
  - apply (in_closed_box_grows (bbox me)); [apply mergeBbox_grows|by apply Hme].
  - apply (in_closed_box_grows (bbox other)); [apply mergeBbox_grows_other|by apply Hother].
Qed.

Lemma merged_keeps_closed_box (me : Interface) (os : list Interface) :
  points_in_closed_box me -> Forall points_in_closed_box os ->
  points_in_closed_box (merged me os).
Proof.
  unfold merged. intros Hme Hos. revert me Hme.
  induction Hos as [|o os Ho _ IH]; intros me Hme; cbn [foldl]; [done|].
  apply IH. by apply absorb_into_keeps_closed_box.
Qed.

(** When no directly added point has a coordinate [0] or [-1], every
    point of the set lies in the box, boundary included: the closed box is
    a filter that loses no member. *)
Theorem addPoints_in_closed_box (i : Z) (ps : list Point3D) (q : Point3D)
    (Hps : Forall (fun p => is_int_point p /\ is_off_zero p) ps)
    (Hq : contains (addPoints ps (Interface_new i)) q = true) :
  in_closed_box (bbox (addPoints ps (Interface_new i))) q.
Proof.
  assert (Hinv : forall s, points_in_closed_box s ->
                           points_in_closed_box (addPoints ps s)).
  { clear Hq. unfold addPoints.
    induction Hps as [|p ps [Hp Hz] _ IH]; intros s Hs; cbn [foldl].
    - done.
    - apply IH. by apply addPoint_keeps_closed_box. }
  apply (Hinv (Interface_new i)).
  - intros r Hr. cbn in Hr. by apply not_elem_of_empty in Hr.
  - unfold contains in Hq. by apply bool_decide_eq_true in Hq.
Qed.

Lemma addPoints_in_closed_box_witness :
  in_closed_box (bbox (addPoints [mkPoint3D 5 5 5; mkPoint3D (-4) 8 2] (Interface_new 1)))
                (mkPoint3D 4 5 5).
Proof.
  apply addPoints_in_closed_box.
  - constructor; [|constructor; [|constructor]];
      (split; [unfold is_int_point, is_int, INT_MIN, INT_MAX|unfold is_off_zero]; cbn; lia).
  - by vm_compute.
Defined.

Lemma merged_bbox_grows_absorbed (me o : Interface) (os : list Interface) :
  o ∈ os -> bbox_grows (bbox o) (bbox (merged me os)).
Proof.
  unfold merged. intros Hin. revert me.
  induction Hin as [o os|o o' os _ IH]; intros me; cbn [foldl].
  - eapply bbox_grows_trans; [|apply (merged_bbox_grows (absorb_into me o) os)].
    apply mergeBbox_grows_other.
  - apply IH.
Qed.

(** What [withinBbox] accepts it goes on accepting: after [addPoint], and
    after [mergeSegments], where the destination also accepts what any
    absorbed segment accepted. *)
Theorem withinBbox_never_retracts (w : World) (this : positive) (me : Interface)
    (its : list positive) (p q : Point3D)
    (Hme : heap w !! this = Some me) (Hits : all_allocated (heap w) its) :
  (withinBbox me q = true -> withinBbox (addPoint p me) q = true) /\
  exists r w' me',
    mergeSegments this its w = Some (r, w') /\
    heap w' !! this = Some me' /\
    (withinBbox me q = true -> withinBbox me' q = true) /\
    (forall s o, s ∈ its -> heap w !! s = Some o -> id o ≠ id me ->
       withinBbox o q = true -> withinBbox me' q = true).
Proof.
  split.
  - apply withinBbox_grows. rewrite addPoint_bbox. apply mergeBbox_grows.
  - eexists _, _, (merged me (absorbed (heap w) me its)).
    split; [apply (mergeSegments_run this its w me Hme Hits)|].
    split; [cbn [heap]; apply lookup_insert_eq|].
    split.
    + apply withinBbox_grows, merged_bbox_grows.
    + intros s o Hs Ho Hid. apply withinBbox_grows, merged_bbox_grows_absorbed.
      by apply (absorbed_elem _ _ _ s).
Qed.

Lemma withinBbox_never_retracts_witness :
  exists r w' me',
    mergeSegments 1%positive [2%positive] two_segments = Some (r, w') /\
    heap w' !! 1%positive = Some me' /\
    withinBbox me' (mkPoint3D 10 10 10) = true.
Proof.
  assert (Hits : all_allocated (heap two_segments) [2%positive]).
  { constructor; [exists segment_B; apply two_segments_B|constructor]. }
  destruct (withinBbox_never_retracts two_segments 1%positive segment_A
              [2%positive] (mkPoint3D 0 0 0) (mkPoint3D 10 10 10) two_segments_A Hits)
    as (_ & r & w' & me' & Hrun & Hme' & _ & Habs).
  exists r, w', me'. split; [exact Hrun|]. split; [exact Hme'|].
  apply (Habs 2%positive segment_B).
  - apply list_elem_of_here.
  - apply two_segments_B.
  - cbn. lia.
  - by vm_compute.
Defined.

Lemma merged_is_u32_box (me : Interface) (os : list Interface) :
  is_u32_box (bbox me) -> Forall (fun o => is_u32_box (bbox o)) os ->
  is_u32_box (bbox (merged me os)).
Proof.
  unfold merged. intros Hme Hos. revert me Hme.
  induction Hos as [|o os Ho _ IH]; intros me Hme; cbn [foldl]; [done|].
  apply IH. by apply mergeBbox_is_u32_box.
Qed.

Lemma absorbed_from_heap (h : gmap positive Interface) (me o : Interface)
    (ps : list positive) :
  o ∈ absorbed h me ps -> exists p, p ∈ ps /\ h !! p = Some o /\ id o ≠ id me.
Proof.
  unfold absorbed, pointees.
  intros [Hid (p & Hp & Ho)%list_elem_of_omap]%list_elem_of_filter. eauto.
Qed.

(** The six components stay values of [uint32_t]: the constructor installs
    such a box, [addPoint] keeps it one, and [mergeSegments] keeps every
    box of the heap one. *)
Theorem boxes_stay_u32 (w : World) (this : positive) (me : Interface)
    (its : list positive) (p : Point3D) (i : Z)
    (Hme : heap w !! this = Some me) (Hits : all_allocated (heap w) its)
    (Hheap : heap_boxes_u32 (heap w)) :
  is_u32_box (bbox (Interface_new i)) /\
  is_u32_box (bbox (addPoint p me)) /\
  exists r w', mergeSegments this its w = Some (r, w') /\ heap_boxes_u32 (heap w').
Proof.
  split; [|split].
  - unfold is_u32_box, is_u32, Interface_new, sentinel_bbox, UINT32_MAX.
    cbn [bbox minX minY minZ maxX maxY maxZ]. lia.
  - rewrite addPoint_bbox.
    apply mergeBbox_is_u32_box; [apply point_box_is_u32_box|by apply (Hheap this)].
  - eexists _, _. split; [apply (mergeSegments_run this its w me Hme Hits)|].
    cbn [heap]. intros l o. destruct (decide (this = l)) as [<-|Hne].
    + rewrite lookup_insert_eq. intros [= <-].
      apply merged_is_u32_box; [by apply (Hheap this)|].
      apply Forall_forall. intros o Ho.
      apply absorbed_from_heap in Ho as (s & _ & Hs & _). by apply (Hheap s).
    + rewrite lookup_insert_ne by done. apply Hheap.
Qed.

Lemma two_segments_boxes_u32 : heap_boxes_u32 (heap two_segments).
Proof.
  intros l o. unfold two_segments. cbn [heap].
  destruct (decide (l = 1%positive)) as [->|H1].
  - rewrite lookup_insert_eq. intros [= <-].
    unfold segment_A. rewrite addPoint_fresh_bbox. apply point_box_is_u32_box.
  - rewrite lookup_insert_ne by done.
    destruct (decide (l = 2%positive)) as [->|H2].
    + rewrite lookup_insert_eq. intros [= <-].
      unfold segment_B. rewrite addPoint_fresh_bbox. apply point_box_is_u32_box.
    + rewrite lookup_insert_ne by done. by rewrite lookup_empty.
Qed.

Lemma boxes_stay_u32_witness :
  exists r w',
    mergeSegments 1%positive [2%positive] two_segments = Some (r, w') /\
    heap_boxes_u32 (heap w').
Proof.
  assert (Hits : all_allocated (heap two_segments) [2%positive]).
  { constructor; [exists segment_B; apply two_segments_B|constructor]. }
  destruct (boxes_stay_u32 two_segments 1%positive segment_A [2%positive]
              (mkPoint3D 0 0 0) 1 two_segments_A Hits two_segments_boxes_u32)
    as (_ & _ & Hmerge).
  exact Hmerge.
Defined.

(* ===================================================================== *)
(** ** Further properties of [mergeSegments] *)
(* ===================================================================== *)

(** Merging keeps the points of every object of the heap in the closed box
    of the object. *)
Theorem mergeSegments_keeps_closed_boxes (w : World) (this : positive) (me : Interface)
    (its : list positive)
    (Hme : heap w !! this = Some me) (Hits : all_allocated (heap w) its)
    (Hheap : heap_points_in_boxes (heap w)) :
  exists r w', mergeSegments this its w = Some (r, w') /\ heap_points_in_boxes (heap w').
Proof.
  eexists _, _. split; [apply (mergeSegments_run this its w me Hme Hits)|].
  cbn [heap]. intros l o. destruct (decide (this = l)) as [<-|Hne].
  - rewrite lookup_insert_eq. intros [= <-].
    apply merged_keeps_closed_box; [by apply (Hheap this)|].
    apply Forall_forall. intros o Ho.
    apply absorbed_from_heap in Ho as (s & _ & Hs & _). by apply (Hheap s).
  - rewrite lookup_insert_ne by done. apply Hheap.
Qed.

Lemma fresh_points_in_closed_box (i : Z) : points_in_closed_box (Interface_new i).
Proof. intros q Hq. cbn in Hq. by apply not_elem_of_empty in Hq. Qed.

Lemma mergeSegments_keeps_closed_boxes_witness :
  let w := mkWorld (<[1%positive := addPoint (mkPoint3D 5 5 5) (Interface_new 1)]>
                      (<[2%positive := segment_B]> ∅))
                   (interfacialSegments two_segments) in
  exists r w', mergeSegments 1%positive [2%positive] w = Some (r, w') /\
               heap_points_in_boxes (heap w').
Proof.
  cbv zeta.
  assert (Hok : forall c, is_int_point (mkPoint3D c c c) /\ is_off_zero (mkPoint3D c c c) ->
                          forall i, points_in_closed_box (addPoint (mkPoint3D c c c)
                                                                   (Interface_new i))).
  { intros c [Hp Hz] i.
    apply addPoint_keeps_closed_box; [done..|apply fresh_points_in_closed_box]. }
  apply (mergeSegments_keeps_closed_boxes _ 1%positive
           (addPoint (mkPoint3D 5 5 5) (Interface_new 1))).
  - cbn [heap]. apply lookup_insert_eq.
  - constructor; [|constructor]. exists segment_B. cbn [heap].
    rewrite lookup_insert_ne by done. apply lookup_insert_eq.
  - intros l o. cbn [heap]. destruct (decide (l = 1%positive)) as [->|H1].
    + rewrite lookup_insert_eq. intros [= <-]. apply Hok.
      split; [unfold is_int_point, is_int, INT_MIN, INT_MAX|unfold is_off_zero]; cbn; lia.
    + rewrite lookup_insert_ne by done.
      destruct (decide (l = 2%positive)) as [->|H2].
      * rewrite lookup_insert_eq. intros [= <-]. apply Hok.
        split; [unfold is_int_point, is_int, INT_MIN, INT_MAX|unfold is_off_zero]; cbn; lia.
      * rewrite lookup_insert_ne by done. by rewrite lookup_empty.
Defined.

Lemma absorb_into_swap (me a b : Interface) :
  absorb_into (absorb_into me a) b = absorb_into (absorb_into me b) a.
Proof.
  apply Interface_eq; unfold absorb_into; cbn [id segment bbox].
  - reflexivity.
  - rewrite <- !(assoc_L (∪)). f_equal. apply (comm_L (∪)).
  - apply mergeBbox_swap.
Qed.

Lemma merged_permutation (os os' : list Interface) (me : Interface) :
  os ≡ₚ os' -> merged me os = merged me os'.
Proof.
  unfold merged. intros Hperm. revert me.
  induction Hperm as [|o os os' _ IH|a b os|os os' os'' _ IH1 _ IH2]; intros me.
  - reflexivity.
  - cbn [foldl]. apply IH.
  - cbn [foldl]. by rewrite absorb_into_swap.
  - by rewrite IH1.
Qed.

Lemma erase_all_permutation (os os' : list Interface) (r : gmap Z positive) :
  os ≡ₚ os' -> erase_all r os = erase_all r os'.
Proof.
  unfold erase_all. intros Hperm. revert r.
  induction Hperm as [|o os os' _ IH|a b os|os os' os'' _ IH1 _ IH2]; intros r.
  - reflexivity.
  - cbn [foldl]. apply IH.
  - cbn [foldl]. by rewrite delete_delete.
  - by rewrite IH1.
Qed.

(** The order of the list does not matter: on a permutation of it the call
    returns the same value and leaves the same heap and registry. *)
Theorem mergeSegments_permutation (w : World) (this : positive) (me : Interface)
    (its its' : list positive)
    (Hme : heap w !! this = Some me) (Hits : all_allocated (heap w) its)
    (Hperm : its ≡ₚ its') :
  mergeSegments this its w = mergeSegments this its' w /\
  is_Some (mergeSegments this its w).
Proof.
  assert (Hits' : all_allocated (heap w) its').
  { unfold all_allocated in *. by rewrite <- Hperm. }
  assert (Habs : absorbed (heap w) me its ≡ₚ absorbed (heap w) me its').
  { unfold absorbed, pointees. by rewrite Hperm. }
  rewrite (mergeSegments_run this its w me Hme Hits).
  rewrite (mergeSegments_run this its' w me Hme Hits').
  split; [|eauto].
  rewrite (merged_permutation _ _ me Habs), (erase_all_permutation _ _ _ Habs).
  do 2 f_equal. apply bool_decide_ext. split; intros Hne ->.
  - apply Permutation_nil_r in Hperm. done.
  - symmetry in Hperm. apply Permutation_nil_r in Hperm. done.
Qed.

Lemma mergeSegments_permutation_witness :
  mergeSegments 1%positive [2%positive; 1%positive] two_segments
    = mergeSegments 1%positive [1%positive; 2%positive] two_segments.
Proof.
  assert (Hits : all_allocated (heap two_segments) [2%positive; 1%positive]).
  { constructor; [exists segment_B; apply two_segments_B|].
    constructor; [exists segment_A; apply two_segments_A|constructor]. }
  apply (mergeSegments_permutation two_segments 1%positive segment_A
           [2%positive; 1%positive] [1%positive; 2%positive] two_segments_A Hits).
  apply perm_swap.
Defined.

Lemma absorb_into_covered (me o : Interface) :
  segment o ⊆ segment me -> bbox_grows (bbox o) (bbox me) -> absorb_into me o = me.
Proof.
  intros Hseg Hbox. apply Interface_eq; unfold absorb_into; cbn [id segment bbox].
  - reflexivity.
  - rewrite (comm_L (∪)). by apply subseteq_union_1_L.
  - rewrite mergeBbox_components. unfold bbox_grows in Hbox.
    apply BBox_eq; cbn [minX minY minZ maxX maxY maxZ]; lia.
Qed.

Lemma merged_segment_absorbed (me o : Interface) (os : list Interface) :
  o ∈ os -> segment o ⊆ segment (merged me os).
Proof.
  intros Hin. rewrite merged_segment.
  intros q Hq. apply elem_of_union_r, elem_of_union_list.
  exists (segment o). split; [|done]. apply list_elem_of_fmap. eauto.
Qed.

Lemma merged_covered (me : Interface) (os : list Interface) :
  Forall (fun o => segment o ⊆ segment me /\ bbox_grows (bbox o) (bbox me)) os ->
  merged me os = me.
Proof.
  unfold merged. induction 1 as [|o os [Hseg Hbox] _ IH]; cbn [foldl]; [done|].
  by rewrite (absorb_into_covered me o Hseg Hbox).
Qed.

Lemma erase_all_again (r : gmap Z positive) (os : list Interface) :
  erase_all (erase_all r os) os = erase_all r os.
Proof.
  apply map_eq. intros k. rewrite !erase_all_lookup.
  by destruct (decide (k ∈ id <$> os)).
Qed.

(** Repeating the call changes nothing: on the state a call has left, the
    same call returns the same value and leaves that state. *)
Theorem mergeSegments_repeat (w w1 : World) (this : positive) (me : Interface)
    (its : list positive) (r : bool)
    (Hme : heap w !! this = Some me) (Hits : all_allocated (heap w) its)
    (Hrun : mergeSegments this its w = Some (r, w1)) :
  mergeSegments this its w1 = Some (r, w1).
Proof.
  rewrite (mergeSegments_run this its w me Hme Hits) in Hrun.
  injection Hrun as <- <-.
  set (os := absorbed (heap w) me its).
  rewrite (mergeSegments_run this its _ (merged me os)); cbn [heap interfacialSegments].
  - rewrite (absorbed_insert _ _ me) by (done || apply merged_id). fold os.
    rewrite insert_insert_eq, erase_all_again.
    rewrite (merged_covered (merged me os) os); [done|].
    apply Forall_forall. intros o Ho. split.
    + by apply merged_segment_absorbed.
    + by apply merged_bbox_grows_absorbed.
  - apply lookup_insert_eq.
  - by apply all_allocated_insert.
Qed.

Lemma mergeSegments_repeat_witness :
  exists w1,
    mergeSegments 1%positive [2%positive] two_segments = Some (true, w1) /\
    mergeSegments 1%positive [2%positive] w1 = Some (true, w1).
Proof.
  assert (Hits : all_allocated (heap two_segments) [2%positive]).
  { constructor; [exists segment_B; apply two_segments_B|constructor]. }
  pose proof (mergeSegments_run 1%positive [2%positive] two_segments segment_A
                two_segments_A Hits) as Hrun.
  eexists. split; [exact Hrun|].
  exact (mergeSegments_repeat two_segments _ 1%positive segment_A [2%positive] _
           two_segments_A Hits Hrun).
Defined.

Lemma for_each_app {A : Type} (body : A -> M unit) (l1 l2 : list A) (w : World) :
  for_each body (l1 ++ l2) w = bind (for_each body l1) (fun _ => for_each body l2) w.
Proof.
  revert w. induction l1 as [|a l1 IH]; intros w; cbn [app for_each].
  - reflexivity.
  - unfold bind. destruct (body a w) as [[[] w']|]; [|reflexivity].
    rewrite IH. reflexivity.
Qed.

(** Merging in two batches is merging at once: a call on [l1 ++ l2] does
    what a call on [l1] followed by a call on [l2] does, also where a
    pointer refers to no object. *)
Theorem mergeSegments_app (w : World) (this : positive) (l1 l2 : list positive)
    (H1 : l1 ≠ []) (H2 : l2 ≠ []) :
  mergeSegments this (l1 ++ l2) w
    = bind (mergeSegments this l1) (fun _ => mergeSegments this l2) w.
Proof.
  destruct l1 as [|a l1]; [done|]. destruct l2 as [|b l2]; [done|].
  unfold mergeSegments. cbn [app].
  change (a :: l1 ++ b :: l2) with ((a :: l1) ++ b :: l2).
  unfold bind at 1. rewrite for_each_app.
  unfold bind, ret.
  destruct (for_each (merge_one this) (a :: l1) w) as [[[] w1]|]; [|reflexivity].
  reflexivity.
Qed.

Lemma mergeSegments_app_witness :
  mergeSegments 1%positive ([2%positive] ++ [1%positive]) two_segments
    = bind (mergeSegments 1%positive [2%positive])
           (fun _ => mergeSegments 1%positive [1%positive]) two_segments.
Proof. apply mergeSegments_app; discriminate. Defined.

Lemma absorb_into_addPoint (me other : Interface) (p : Point3D) :
  absorb_into me (addPoint p other) = addPoint p (absorb_into me other).
Proof.
  apply Interface_eq; unfold absorb_into.
  - reflexivity.
  - cbn [segment]. rewrite !addPoint_segment. cbn [segment].
    by rewrite (assoc_L (∪)).
  - cbn [bbox]. rewrite !addPoint_bbox. cbn [bbox].
    symmetry. apply mergeBbox_assoc.
Qed.

Lemma absorb_into_addPoints (me other : Interface) (ps : list Point3D) :
  absorb_into me (addPoints ps other) = addPoints ps (absorb_into me other).
Proof.
  unfold addPoints. revert other.
  induction ps as [|p ps IH]; intros other; cbn [foldl]; [done|].
  by rewrite IH, absorb_into_addPoint.
Qed.

Lemma absorb_into_fresh (me : Interface) (j : Z) :
  is_u32_box (bbox me) -> absorb_into me (Interface_new j) = me.
Proof.
  intros Hbox. apply Interface_eq; unfold absorb_into, Interface_new; cbn [id segment bbox].
  - reflexivity.
  - apply (right_id_L ∅ (∪)).
  - by apply mergeBbox_sentinel_l.
Qed.

(** Absorbing a segment that was built by [addPoint] calls on a fresh
    object leaves the destination as if the same calls had been made on the
    destination itself. *)
Theorem mergeSegments_as_addPoints (w : World) (this it : positive) (me : Interface)
    (j : Z) (ps : list Point3D)
    (Hme : heap w !! this = Some me)
    (Hit : heap w !! it = Some (addPoints ps (Interface_new j)))
    (Hid : j ≠ id me)
    (Hbox : is_u32_box (bbox me)) :
  exists w',
    mergeSegments this [it] w = Some (true, w') /\
    heap w' !! this = Some (addPoints ps me) /\
    interfacialSegments w' = delete j (interfacialSegments w).
Proof.
  set (other := addPoints ps (Interface_new j)) in *.
  assert (Hidj : id other = j) by apply addPoints_id.
  assert (Hres : Forall2 (fun p o => heap w !! p = Some o) [it] [other])
    by (constructor; [exact Hit|constructor]).
  assert (Hids : Forall (fun o => id o ≠ id me) [other])
    by (constructor; [by rewrite Hidj|constructor]).
  pose proof (mergeSegments_run this [it] w me Hme (resolved_allocated _ _ _ Hres)) as Hrun.
  rewrite (absorbed_all _ _ _ _ Hres Hids) in Hrun.
  eexists. split; [exact Hrun|].
  cbn [heap interfacialSegments]. split.
  - rewrite lookup_insert_eq. f_equal. unfold merged, other. cbn [foldl].
    by rewrite absorb_into_addPoints, absorb_into_fresh.
  - unfold erase_all. cbn [foldl]. by rewrite Hidj.
Qed.

Lemma mergeSegments_as_addPoints_witness :
  exists w',
    mergeSegments 1%positive [2%positive] two_segments = Some (true, w') /\
    heap w' !! 1%positive = Some (addPoints [mkPoint3D 10 10 10] segment_A) /\
    interfacialSegments w' = delete 2 (interfacialSegments two_segments).
Proof.
  apply (mergeSegments_as_addPoints two_segments 1%positive 2%positive segment_A
           2 [mkPoint3D 10 10 10]).
  - apply two_segments_A.
  - apply two_segments_B.
  - cbn. lia.
  - unfold segment_A. rewrite addPoint_fresh_bbox. apply point_box_is_u32_box.
Defined.

(** A point added to the source before the merge, or to the destination
    after it, leaves the same destination and the same registry. *)
Theorem addPoint_commutes_with_merge (w : World) (this it : positive)
    (me other : Interface) (p : Point3D)
    (Hme : heap w !! this = Some me) (Hit : heap w !! it = Some other)
    (Hid : id other ≠ id me) :
  exists w1 w2,
    bind (addPoint_at it p) (fun _ => mergeSegments this [it]) w = Some (true, w1) /\
    bind (mergeSegments this [it]) (fun _ => addPoint_at this p) w = Some (tt, w2) /\
    heap w1 !! this = Some (addPoint p (absorb_into me other)) /\
    heap w2 !! this = Some (addPoint p (absorb_into me other)) /\
    interfacialSegments w1 = interfacialSegments w2.
Proof.
  assert (Hne : it ≠ this) by (intros ->; congruence).
  (* the point first *)
  set (wa := mkWorld (<[it := addPoint p other]> (heap w)) (interfacialSegments w)).
  assert (Hadd : addPoint_at it p w = Some (tt, wa)).
  { unfold addPoint_at. by run_deref Hit. }
  assert (Hme_a : heap wa !! this = Some me)
    by (cbn [wa heap]; by rewrite lookup_insert_ne).
  assert (Hres_a : Forall2 (fun q o => heap wa !! q = Some o) [it] [addPoint p other]).
  { constructor; [cbn [wa heap]; apply lookup_insert_eq|constructor]. }
  assert (Hids_a : Forall (fun o => id o ≠ id me) [addPoint p other])
    by (constructor; [by rewrite addPoint_id|constructor]).
  pose proof (mergeSegments_run this [it] wa me Hme_a (resolved_allocated _ _ _ Hres_a))
    as Hrun_a.
  rewrite (absorbed_all _ _ _ _ Hres_a Hids_a) in Hrun_a.
  (* the merge first *)
  assert (Hres : Forall2 (fun q o => heap w !! q = Some o) [it] [other])
    by (constructor; [exact Hit|constructor]).
  assert (Hids : Forall (fun o => id o ≠ id me) [other])
    by (constructor; [exact Hid|constructor]).
  pose proof (mergeSegments_run this [it] w me Hme (resolved_allocated _ _ _ Hres))
    as Hrun.
  rewrite (absorbed_all _ _ _ _ Hres Hids) in Hrun.
  eexists _, _.
  split; [rewrite (bind_Some _ _ _ _ _ Hadd); exact Hrun_a|].
  split.
  { rewrite (bind_Some _ _ _ _ _ Hrun). unfold addPoint_at.
    match goal with
    | |- bind (deref this) _ ?w0 = _ =>
        assert (Hm : heap w0 !! this = Some (merged me [other]))
          by (cbn [heap]; apply lookup_insert_eq)
    end.
    run_deref Hm. reflexivity. }
  cbn [heap interfacialSegments].
  split; [|split].
  - rewrite lookup_insert_eq. unfold merged. cbn [foldl].
    by rewrite absorb_into_addPoint.
  - by rewrite lookup_insert_eq.
  - unfold erase_all. cbn [foldl]. by rewrite addPoint_id.
Qed.

Lemma addPoint_commutes_with_merge_witness :
  exists w1 w2,
    bind (addPoint_at 2%positive (mkPoint3D 3 3 3))
         (fun _ => mergeSegments 1%positive [2%positive]) two_segments = Some (true, w1) /\
    bind (mergeSegments 1%positive [2%positive])
         (fun _ => addPoint_at 1%positive (mkPoint3D 3 3 3)) two_segments = Some (tt, w2) /\
    heap w1 !! 1%positive = heap w2 !! 1%positive.
Proof.
  destruct (addPoint_commutes_with_merge two_segments 1%positive 2%positive
              segment_A segment_B (mkPoint3D 3 3 3) two_segments_A two_segments_B)
    as (w1 & w2 & H1 & H2 & Hh1 & Hh2 & _).
  - cbn. lia.
  - exists w1, w2. split; [exact H1|]. split; [exact H2|]. by rewrite Hh1, Hh2.
Defined.

(** The registry only loses entries, those of the ids of the absorbed
    segments; erasing an id that is not registered changes nothing. *)
Theorem registry_only_shrinks (w : World) (this : positive) (me : Interface)
    (its : list positive)
    (Hme : heap w !! this = Some me) (Hits : all_allocated (heap w) its) :
  exists r w',
    mergeSegments this its w = Some (r, w') /\
    interfacialSegments w' ⊆ interfacialSegments w /\
    dom (interfacialSegments w')
      = dom (interfacialSegments w) ∖ list_to_set (id <$> absorbed (heap w) me its) /\
    ((forall o, o ∈ absorbed (heap w) me its -> interfacialSegments w !! id o = None) ->
     interfacialSegments w' = interfacialSegments w).
Proof.
  eexists _, _. split; [apply (mergeSegments_run this its w me Hme Hits)|].
  cbn [interfacialSegments]. set (os := absorbed (heap w) me its).
  split; [|split].
  - apply map_subseteq_spec. intros k v. rewrite erase_all_lookup.
    by destruct (decide (k ∈ id <$> os)).
  - apply set_eq. intros k.
    rewrite elem_of_difference, !elem_of_dom, elem_of_list_to_set, erase_all_lookup.
    destruct (decide (k ∈ id <$> os)) as [Hin|Hout].
    + split; [by intros [? ?]|tauto].
    + tauto.
  - intros Hnone. apply map_eq. intros k. rewrite erase_all_lookup.
    destruct (decide (k ∈ id <$> os)) as [(o & -> & Ho)%list_elem_of_fmap|]; [|done].
    symmetry. by apply Hnone.
Qed.

Lemma registry_only_shrinks_witness :
  exists r w',
    mergeSegments 1%positive [2%positive]
      (mkWorld (heap two_segments) {[ 1 := 1%positive ]}) = Some (r, w') /\
    interfacialSegments w' = {[ 1 := 1%positive ]}.
Proof.
  assert (Hits : all_allocated (heap two_segments) [2%positive]).
  { constructor; [exists segment_B; apply two_segments_B|constructor]. }
  pose (w0 := mkWorld (heap two_segments) ({[ 1 := 1%positive ]} : gmap Z positive)).
  destruct (registry_only_shrinks w0 1%positive segment_A [2%positive]
              two_segments_A Hits)
    as (r & w' & Hrun & _ & _ & Hsame).
  exists r, w'. split; [exact Hrun|].
  refine (Hsame _).
  intros o Ho. apply absorbed_from_heap in Ho as (s & Hs & Hso & _).
  apply list_elem_of_singleton in Hs. subst s.
  change (heap two_segments !! 2%positive = Some o) in Hso.
  rewrite two_segments_B in Hso. injection Hso as <-.
  change (({[ 1 := 1%positive ]} : gmap Z positive) !! 2 = None).
  by apply lookup_singleton_ne.
Defined.
